(** * smart_rockets: the simulation and breeding engine of [main.py]

    A shallow embedding of the classes [Rocket] and [Simulation] and of the
    body of the loop of [main], followed by the properties of the engine.

    Conventions of the embedding.
    - A Python [float] is read as a real number ([R]): rounding, overflow
      and NaN are outside the model.  Where rounding decides a property,
      the arithmetic is given as well with every result rounded
      ([score_rounded]) and on binary64 floats ([score_binary64]).
      Python [int]s are [Z] or [nat].
    - The module-level state of the interpreter (the generator of
      [random], the class counter [Rocket._id]) is a record [Process]
      threaded through a state-and-exception monad [M].
    - Python exceptions are values of [exn]; nothing in [main.py]
      catches one.
    - [pygame] is outside the repository: [Rect.collidepoint] is a
      parameter of the development, drawing is kept only for its effect on
      the fields of [Simulation]. *)

From Stdlib Require Import Floats.PrimFloat.
From Stdlib Require Import Reals Lra ZArith QArith List Lia Bool Permutation Sorted.
From ExtLib Require Import Structures.Monad.
Import ListNotations.
Import MonadNotation.

Local Open Scope monad_scope.

(** ** Exceptions and results *)

Inductive exn : Set :=
| IndexError
| ZeroDivisionError
| ValueError.

Inductive result (A : Type) : Type :=
| Ok (a : A)
| Raise (e : exn).

Arguments Ok {A} a.
Arguments Raise {A} e.

#[global] Instance Monad_result : Monad result :=
  {| ret := fun _ a => Ok a;
     bind := fun _ _ c k => match c with Ok a => k a | Raise e => Raise e end |}.

(** [for x in l: ...] with a body that may raise. *)
Fixpoint for_each {m : Type -> Type} {Mm : Monad m} {A B : Type}
    (f : A -> m B) (l : list A) : m (list B) :=
  match l with
  | [] => ret []
  | a :: t => b <- f a ;; bs <- for_each f t ;; ret (b :: bs)
  end.

(** [for _ in range(n)] collecting what each round produces. *)
Fixpoint repeat_m {m : Type -> Type} {Mm : Monad m} {A : Type}
    (n : nat) (c : m A) : m (list A) :=
  match n with
  | O => ret []
  | S k => a <- c ;; t <- repeat_m k c ;; ret (a :: t)
  end.

(** ** Numbers *)

Local Open Scope R_scope.

Definition Rltb (a b : R) : bool := if Rlt_dec a b then true else false.
Definition Rleb (a b : R) : bool := if Rle_dec a b then true else false.

(** [a / b] on floats: Python raises on a zero divisor. *)
Definition truediv (a b : R) : result R :=
  if Req_dec_T b 0 then Raise ZeroDivisionError else Ok (a / b).

(** [int(x)] on a float: truncation towards zero. *)
Definition int (x : R) : Z :=
  if Rle_dec 0 x then Int_part x else (- Int_part (- x))%Z.

(** [round(x)] on a float: the nearest integer, ties to the even one. *)
Definition round (x : R) : Z :=
  let f := Int_part x in
  if Rlt_dec (frac_part x) (1 / 2) then f
  else if Rlt_dec (1 / 2) (frac_part x) then (f + 1)%Z
  else if Z.even f then f else (f + 1)%Z.

Module math.
Definition radians (deg : R) : R := deg * (PI / 180).
Definition hypot (a b : R) : R := sqrt (a * a + b * b).
End math.

(** ** The interpreter's module-level state *)

(** What the loop of [main] calls on the simulation, in order. *)
Inductive Call : Set := CallNextGen | CallUpdate | CallDraw | CallRestart.

(** [entropy] is the sequence of raw draws of the generator and [drawn]
    how many were consumed; [_id] is [Rocket._id]; [calls] is a ghost log
    (latest first) written by [main] only. *)
Record Process : Type := mkProcess
  { entropy : nat -> nat;
    drawn : nat;
    _id : nat;
    calls : list Call }.

Definition M (A : Type) : Type := Process -> result A * Process.

#[global] Instance Monad_M : Monad M :=
  {| ret := fun _ a p => (Ok a, p);
     bind := fun _ _ c k p =>
       match c p with
       | (Ok a, p') => k a p'
       | (Raise e, p') => (Raise e, p')
       end |}.

Definition raise {A : Type} (e : exn) : M A := fun p => (Raise e, p).

Definition lift {A : Type} (r : result A) : M A := fun p => (r, p).

Definition tell (c : Call) : M unit :=
  fun p => (Ok tt, mkProcess (entropy p) (drawn p) (_id p) (c :: calls p)).

Module random.

Definition raw : M nat :=
    fun p => (Ok (entropy p (drawn p)),
              mkProcess (entropy p) (S (drawn p)) (_id p) (calls p)).

  (** [random.randint(a, b)]: an integer of [a..b], [ValueError] on an
      empty range. *)
Definition randint (a b : Z) : M Z :=
    if (b <? a)%Z then raise ValueError
    else n <- raw ;; ret (a + Z.of_nat n mod (b - a + 1))%Z.

  (** [random.random()]: a multiple of [2^-53] in [[0, 1)]. *)
Definition random : M Q :=
    n <- raw ;; ret ((Z.of_nat n mod 2 ^ 53)%Z # 2 ^ 53).

  (** [random.uniform(a, b)] is [a + (b - a) * random()]. *)
Definition uniform (a b : Q) : M Q :=
    u <- random ;; ret (a + (b - a) * u)%Q.

  (** [random.choice(seq)]: [IndexError] on an empty sequence. *)
Definition choice {A : Type} (seq : list A) : M A :=
    match seq with
    | [] => raise IndexError
    | a :: _ => n <- raw ;; ret (nth (n mod length seq) seq a)
    end.

End random.

(** The float literal [0.1], exactly: 3602879701896397 / 2^55. *)
Definition float_0_1 : Q := 3602879701896397 # 36028797018963968.

(** ** Points and rectangles *)

Module Point.
Record t : Type := mk { x : R; y : R }.
End Point.

(** A [pygame.Rect]: integer left, top, width and height. *)
Module Rect.
Record t : Type := mk { left : Z; top : Z; width : Z; height : Z }.
End Rect.

(** ** class Rocket *)

Module Rocket.

Record t : Type := mk
    { genome : list Z;
      fitness : R;
      id : nat;
      alive : bool;
      angle : Z;
      pos : Point.t }.

Definition next_id : M nat :=
    fun p => (Ok (_id p),
              mkProcess (entropy p) (drawn p) (S (_id p)) (calls p)).

Definition __init__ : M t :=
    g <- repeat_m 300 (random.randint (-7) 7) ;;
    i <- next_id ;;
    ret {| genome := g; fitness := -1; id := i; alive := true;
           angle := 0; pos := Point.mk 0 0 |}.

Definition apply_force (self : t) (force : R) : t :=
    let radians := math.radians (IZR (angle self)) in
    let x := Point.x (pos self) + cos radians * force in
    let y := Point.y (pos self) + sin radians * force in
    {| genome := genome self; fitness := fitness self; id := id self;
       alive := alive self; angle := angle self; pos := Point.mk x y |}.

Definition set_angle (self : t) (a : Z) : t :=
    {| genome := genome self; fitness := fitness self; id := id self;
       alive := alive self; angle := a; pos := pos self |}.

Definition set_alive (self : t) (b : bool) : t :=
    {| genome := genome self; fitness := fitness self; id := id self;
       alive := b; angle := angle self; pos := pos self |}.

Definition set_fitness (self : t) (f : R) : t :=
    {| genome := genome self; fitness := f; id := id self;
       alive := alive self; angle := angle self; pos := pos self |}.

Definition set_pos (self : t) (p : Point.t) : t :=
    {| genome := genome self; fitness := fitness self; id := id self;
       alive := alive self; angle := angle self; pos := p |}.

Definition set_genome (self : t) (g : list Z) : t :=
    {| genome := g; fitness := fitness self; id := id self;
       alive := alive self; angle := angle self; pos := pos self |}.

End Rocket.

(** ** class Simulation: the state *)

(** What [restart] reads from [config.json]: [start_pos] and [goal] are
    pairs of integers, an obstacle is the [x, y, width, height] of a
    [pygame.Rect]. *)
Module Config.
Record t : Type := mk
    { population : Z;
      obstacles : list Rect.t;
      start_pos : Z * Z;
      goal : Z * Z }.
End Config.

(** The fields of a [Simulation] ([info_font] is left out). *)
Record Simulation : Type := mkSimulation
  { win_size : Rect.t;
    rockets : list Rocket.t;
    index : nat;
    obstacles : list Rect.t;
    generation : nat;
    best_fitness : Z;
    fps : Z;
    population : Z;
    start : Point.t;
    goal : Point.t }.

Definition set_rockets (self : Simulation) (rs : list Rocket.t) : Simulation :=
  mkSimulation (win_size self) rs (index self) (obstacles self)
    (generation self) (best_fitness self) (fps self) (population self)
    (start self) (goal self).

Definition set_index (self : Simulation) (i : nat) : Simulation :=
  mkSimulation (win_size self) (rockets self) i (obstacles self)
    (generation self) (best_fitness self) (fps self) (population self)
    (start self) (goal self).

Definition set_generation (self : Simulation) (g : nat) : Simulation :=
  mkSimulation (win_size self) (rockets self) (index self) (obstacles self)
    g (best_fitness self) (fps self) (population self)
    (start self) (goal self).

Definition set_best_fitness (self : Simulation) (b : Z) : Simulation :=
  mkSimulation (win_size self) (rockets self) (index self) (obstacles self)
    (generation self) b (fps self) (population self)
    (start self) (goal self).

Definition set_fps (self : Simulation) (f : Z) : Simulation :=
  mkSimulation (win_size self) (rockets self) (index self) (obstacles self)
    (generation self) (best_fitness self) f (population self)
    (start self) (goal self).

Definition set_goal (self : Simulation) (g : Point.t) : Simulation :=
  mkSimulation (win_size self) (rockets self) (index self) (obstacles self)
    (generation self) (best_fitness self) (fps self) (population self)
    (start self) g.

(** [WIN_SIZE = [600, 800]] and [pygame.Rect((0, 0), win_size)]. *)
Definition WIN_SIZE : Z * Z := (600, 800)%Z.

Definition Rect_at_origin (size : Z * Z) : Rect.t :=
  Rect.mk 0 0 (fst size) (snd size).

(** ** Python built-ins on lists *)

(** [a % b] on non-negative integers. *)
Definition mod_ (a b : nat) : result nat :=
  match b with
  | O => Raise ZeroDivisionError
  | _ => Ok (a mod b)%nat
  end.

(** [l[i]] for [i >= 0]. *)
Definition getitem {A : Type} (l : list A) (i : nat) : result A :=
  match nth_error l i with
  | Some a => Ok a
  | None => Raise IndexError
  end.

(** [sorted(l, key=..., reverse=True)]: a stable sort; [before b a] says
    that the key of [b] is strictly greater than the key of [a].  An item
    is inserted in front of the sorted rest of the list, behind the items
    that must come strictly before it, so equal keys keep their order. *)
Section Sorted.
Context {A : Type} (before : A -> A -> bool).

Fixpoint insert (a : A) (l : list A) : list A :=
    match l with
    | [] => [a]
    | b :: t => if before b a then b :: insert a t else a :: b :: t
    end.

Definition sorted (l : list A) : list A := fold_right insert [] l.
End Sorted.

(** [max(l, key=...)] after its first item: the first of the greatest. *)
Fixpoint max_from {A : Type} (less : A -> A -> bool) (best : A) (l : list A) : A :=
  match l with
  | [] => best
  | a :: t => max_from less (if less best a then a else best) t
  end.

Definition max_ {A : Type} (less : A -> A -> bool) (l : list A) : result A :=
  match l with
  | [] => Raise ValueError
  | a :: t => Ok (max_from less a t)
  end.

(** ** class Simulation: the methods *)

Section Engine.

(** [pygame.Rect.collidepoint]: whether a point lies inside a rectangle. *)
Variable collidepoint : Rect.t -> Point.t -> bool.

Definition _distance (p1 p2 : Point.t) : R :=
  math.hypot (Point.x p1 - Point.x p2) (Point.y p1 - Point.y p2).

Definition _reset_rockets (self : Simulation) (rockets : list Rocket.t)
  : list Rocket.t :=
  map (fun rocket =>
         let rocket :=
           Rocket.set_pos rocket
             (Point.mk (Point.x (start self)) (Point.y (start self) + 3 - 50)) in
         let rocket := Rocket.set_angle rocket 270 in
         Rocket.set_alive rocket true)
      rockets.

(** [restart]: every field but [win_size] is set anew from the
    configuration [cnf] that [_load_config] returns. *)
Definition restart (cnf : Config.t) (self : Simulation) : M Simulation :=
  let start := Point.mk (IZR (fst (Config.start_pos cnf)))
                        (IZR (snd (Config.start_pos cnf))) in
  let goal := Point.mk (IZR (fst (Config.goal cnf)))
                       (IZR (snd (Config.goal cnf))) in
  rockets <- repeat_m (Z.to_nat (Config.population cnf)) Rocket.__init__ ;;
  let self := mkSimulation (win_size self) rockets 0 (Config.obstacles cnf)
                1 0 30 (Config.population cnf) start goal in
  ret (set_rockets self (_reset_rockets self rockets)).

(** [Simulation(win_size)]. *)
Definition Simulation__init__ (cnf : Config.t) (win_size : Z * Z) : M Simulation :=
  restart cnf (mkSimulation (Rect_at_origin win_size) [] 0 [] 1 0 30 0
                 (Point.mk 0 0) (Point.mk 0 0)).

(** The body of the loop of [update] for one rocket. *)
Definition update_rocket (self : Simulation) (rocket : Rocket.t)
  : result Rocket.t :=
  if Rocket.alive rocket then
    let rocket := Rocket.apply_force rocket 3 in
    i <- mod_ (index self) (length (Rocket.genome rocket)) ;;
    d <- getitem (Rocket.genome rocket) i ;;
    ret (Rocket.set_angle rocket (Rocket.angle rocket + d))
  else ret rocket.

(** The body of the loop of [_check_collision] for one rocket. *)
Definition check_rocket (self : Simulation) (rocket : Rocket.t) : Rocket.t :=
  let p := Rocket.pos rocket in
  let rocket :=
    if Rltb (Point.x p) 0 || Rltb (IZR (Rect.width (win_size self))) (Point.x p)
    then Rocket.set_alive rocket false
    else if Rltb (Point.y p) 0
            || Rltb (IZR (Rect.height (win_size self))) (Point.y p)
    then Rocket.set_alive rocket false
    else rocket in
  fold_left (fun rocket obs =>
               if collidepoint obs (Rocket.pos rocket)
               then Rocket.set_alive rocket false else rocket)
            (obstacles self) rocket.

Definition _check_collision (self : Simulation) : Simulation :=
  set_rockets self (map (check_rocket self) (rockets self)).

Definition _fitness (self : Simulation) (rockets : list Rocket.t)
  : result (list Rocket.t) :=
  let total_distance := _distance (start self) (goal self) in
  for_each (fun rocket =>
              let d := _distance (Rocket.pos rocket) (goal self) in
              q <- truediv d total_distance ;;
              ret (Rocket.set_fitness rocket (100 - q * 100)))
           rockets.

Definition update (self : Simulation) : result Simulation :=
  moved <- for_each (update_rocket self) (rockets self) ;;
  let self := set_rockets self moved in
  let self := set_index self (index self + 1) in
  let self := _check_collision self in
  scored <- _fitness self (rockets self) ;;
  ret (set_rockets self scored).

Definition alive_rockets (self : Simulation) : nat :=
  length (filter Rocket.alive (rockets self)).

Definition found_solution (self : Simulation) : bool :=
  existsb (fun r => Rltb (_distance (Rocket.pos r) (goal self)) 10)
          (rockets self).

(** The key order of [sorted(..., key=lambda r: r.fitness, reverse=True)]. *)
Definition fitter (a b : Rocket.t) : bool :=
  Rltb (Rocket.fitness b) (Rocket.fitness a).

(** [_selection]: the list [rockets] that the rare branch extends is the
    local sorted copy, and [result] was sliced from it before (the
    [print] of that branch is left out). *)
Definition _selection (rockets : list Rocket.t) : M (list Rocket.t) :=
  let rockets := sorted fitter rockets in
  let result :=
    firstn (Z.to_nat (int (0.2 * INR (length rockets)))) rockets in
  u <- random.uniform 0 1 ;;
  let rockets :=
    if Qle_bool u float_0_1
    then rockets ++ skipn (length rockets - 2) rockets
    else rockets in
  ret result.

(** One round of the loop of [_crossover]: the two children, in the order
    they are appended.  [Rocket] defines no [__eq__], so [r != parent1]
    compares objects; every rocket gets its own [id] when it is made, and
    the model compares these. *)
Definition crossover_round (rockets : list Rocket.t) : M (list Rocket.t) :=
  parent1 <- random.choice rockets ;;
  parent2 <- random.choice
               (filter (fun r => negb (Rocket.id r =? Rocket.id parent1)%nat)
                       rockets) ;;
  child1 <- Rocket.__init__ ;;
  child2 <- Rocket.__init__ ;;
  split <- random.randint 0 (Z.of_nat (length (Rocket.genome parent1))) ;;
  let split := Z.to_nat split in
  let child1 :=
    Rocket.set_genome child1
      (firstn split (Rocket.genome parent1) ++ skipn split (Rocket.genome parent2)) in
  let child2 :=
    Rocket.set_genome child2
      (firstn split (Rocket.genome parent2) ++ skipn split (Rocket.genome parent1)) in
  ret [child1; child2].

Definition _crossover (self : Simulation) (rockets : list Rocket.t)
  : M (list Rocket.t) :=
  offspring <-
    repeat_m
      (Z.to_nat (int (IZR (population self - Z.of_nat (length rockets)) / 2)))
      (crossover_round rockets) ;;
  ret (rockets ++ concat offspring).

(** The body of the inner loop of [_mutation] for one gene. *)
Definition mutate_gene (gene : Z) : M Z :=
  u <- random.uniform 0 1 ;;
  if Qle_bool u float_0_1 then random.randint (-7) 7 else ret gene.

Definition _mutation (rockets : list Rocket.t) : M (list Rocket.t) :=
  for_each (fun rocket =>
              g <- for_each mutate_gene (Rocket.genome rocket) ;;
              ret (Rocket.set_genome rocket g))
           rockets.

Definition next_gen (self : Simulation) : M Simulation :=
  rockets <- _selection (rockets self) ;;
  rockets <- _crossover self rockets ;;
  rockets <- _mutation rockets ;;
  let rockets := _reset_rockets self rockets in
  let self := set_rockets self rockets in
  let self := set_index self 0 in
  ret (set_generation self (generation self + 1)).

(** [draw], as far as the simulation sees it: [_draw_overlay] keeps the
    high-water mark of the rounded best fitness. *)
Definition draw (self : Simulation) : result Simulation :=
  best <- max_ (fun a b => Rltb (Rocket.fitness a) (Rocket.fitness b))
               (rockets self) ;;
  let best := round (Rocket.fitness best) in
  ret (set_best_fitness self (Z.max (best_fitness self) best)).

(** ** The loop of [main] *)

Inductive Key : Set := K_q | K_a | K_z | K_r | K_other.

(** What [pygame.event.get()] returns; a [MOUSEBUTTONUP] comes with what
    [pygame.mouse.get_pos()] answers while it is handled. *)
Inductive Event : Set :=
| QUIT
| KEYUP (key : Key)
| MOUSEBUTTONUP (button : Z) (mouse_pos : Z * Z)
| OtherEvent.

(** The body of [for event in pygame.event.get()] on [(done, sim)]. *)
Definition handle_event (cnf : Config.t) (st : bool * Simulation) (event : Event)
  : M (bool * Simulation) :=
  let (done, sim) := st in
  match event with
  | QUIT => ret (true, sim)
  | KEYUP K_q => ret (true, sim)
  | KEYUP K_a =>
      if (fps sim <? 300)%Z then ret (done, set_fps sim (fps sim + 5))
      else ret (done, sim)
  | KEYUP K_z =>
      if (5 <? fps sim)%Z then ret (done, set_fps sim (fps sim - 5))
      else ret (done, sim)
  | KEYUP K_r =>
      tell CallRestart ;; sim <- restart cnf sim ;; ret (done, sim)
  | KEYUP K_other => ret (done, sim)
  | MOUSEBUTTONUP button (x, y) =>
      if (button =? 3)%Z
      then ret (done, set_goal sim (Point.mk (IZR x) (IZR y)))
      else ret (done, sim)
  | OtherEvent => ret (done, sim)
  end.

Fixpoint handle_events (cnf : Config.t) (events : list Event)
    (st : bool * Simulation) : M (bool * Simulation) :=
  match events with
  | [] => ret st
  | event :: rest => st <- handle_event cnf st event ;; handle_events cnf rest st
  end.

(** [if sim.alive_rockets() == 0: sim.next_gen()]. *)
Definition breed_if_none_alive (sim : Simulation) : M Simulation :=
  if (alive_rockets sim =? 0)%nat
  then tell CallNextGen ;; next_gen sim
  else ret sim.

(** [if not sim.found_solution(): sim.update(); sim.draw(surface)]. *)
Definition step_unless_solved (sim : Simulation) : M Simulation :=
  if negb (found_solution sim) then
    tell CallUpdate ;;
    sim <- lift (update sim) ;;
    tell CallDraw ;;
    lift (draw sim)
  else ret sim.

(** What follows the event loop in one iteration of [while not done]. *)
Definition tick (sim : Simulation) : M Simulation :=
  sim <- breed_if_none_alive sim ;;
  step_unless_solved sim.

(** One iteration of [while not done] ([clock.tick] only paces it). *)
Definition loop_body (cnf : Config.t) (events : list Event)
    (st : bool * Simulation) : M (bool * Simulation) :=
  st <- handle_events cnf events st ;;
  sim <- tick (snd st) ;;
  ret (fst st, sim).

(** [while not done] over the events of the successive frames. *)
Fixpoint run (cnf : Config.t) (frames : list (list Event))
    (st : bool * Simulation) : M (bool * Simulation) :=
  match frames with
  | [] => ret st
  | events :: rest =>
      if fst st then ret st
      else st <- loop_body cnf events st ;; run cnf rest st
  end.

Definition main (cnf : Config.t) (frames : list (list Event))
  : M (bool * Simulation) :=
  sim <- Simulation__init__ cnf WIN_SIZE ;;
  run cnf frames (false, sim).

(** ** The vocabulary of the properties *)

(** [c] returns only values that satisfy [Q]. *)
Definition ensures {A : Type} (c : M A) (Q : A -> Prop) : Prop :=
  forall p a p', c p = (Ok a, p') -> Q a.

(** [c] returns, whatever the state of the interpreter. *)
Definition succeeds {A : Type} (c : M A) : Prop :=
  forall p, exists a p', c p = (Ok a, p').

(** [c] writes nothing to the ghost log and never lowers [Rocket._id]. *)
Definition steady {A : Type} (c : M A) : Prop :=
  forall p r p', c p = (r, p') -> calls p' = calls p /\ (_id p <= _id p')%nat.

(** From a state that satisfies [Pre], [c] returns only values and states
    that satisfy [Post]. *)
Definition hoare {A : Type} (Pre : Process -> Prop) (c : M A)
    (Post : A -> Process -> Prop) : Prop :=
  forall p a p', Pre p -> c p = (Ok a, p') -> Post a p'.

(** The rockets [rs] are distinct objects, made before the state [p]. *)
Definition fresh (rs : list Rocket.t) (p : Process) : Prop :=
  NoDup (map Rocket.id rs)
  /\ Forall (fun i => (i < _id p)%nat) (map Rocket.id rs).

(** The rockets [f a] of a result [a] of [c] are distinct objects that
    [c] made. *)
Definition makes {A : Type} (f : A -> list Rocket.t) (c : M A) : Prop :=
  forall p a p',
    c p = (Ok a, p') ->
    (_id p <= _id p')%nat
    /\ NoDup (map Rocket.id (f a))
    /\ Forall (fun i => (_id p <= i < _id p')%nat) (map Rocket.id (f a)).

(** A gene of [-7..7]; a genome of 300 of them. *)
Definition gene_ok (g : Z) : Prop := (-7 <= g <= 7)%Z.

Definition genome_ok (r : Rocket.t) : Prop :=
  length (Rocket.genome r) = 300%nat /\ Forall gene_ok (Rocket.genome r).

(** The rockets of fitness [k]. *)
Definition has_fitness (k : R) (r : Rocket.t) : bool :=
  if Req_dec_T (Rocket.fitness r) k then true else false.

(** [l'] is the stable descending sort of [l] by fitness: fitness never
    increases along [l'], and for each fitness value [l'] holds the same
    rockets as [l], in the order they have in [l]. *)
Definition stable_desc_sort_of (l l' : list Rocket.t) : Prop :=
  StronglySorted (fun a b => Rocket.fitness b <= Rocket.fitness a) l'
  /\ forall k, filter (has_fitness k) l' = filter (has_fitness k) l.

(** A collision at point [p]: outside the window, or inside an obstacle. *)
Definition collision_at (self : Simulation) (p : Point.t) : Prop :=
  Point.x p < 0 \/ IZR (Rect.width (win_size self)) < Point.x p
  \/ Point.y p < 0 \/ IZR (Rect.height (win_size self)) < Point.y p
  \/ exists obs, In obs (obstacles self) /\ collidepoint obs p = true.

(** What [update] makes of one rocket: the move [m], then the collision
    check, then the score. *)
Definition rocket_step (self : Simulation) (r r' : Rocket.t) : Prop :=
  exists m q,
    update_rocket self r = Ok m
    /\ truediv (_distance (Rocket.pos m) (goal self))
                (_distance (start self) (goal self)) = Ok q
    /\ r' = Rocket.set_fitness (check_rocket self m) (100 - q * 100).

(** [n] successive calls of [update]. *)
Fixpoint updates (n : nat) (self : Simulation) : result Simulation :=
  match n with
  | O => Ok self
  | S k => self <- update self ;; updates k self
  end.




(** Where [_reset_rockets] puts a rocket. *)
Definition on_the_pad (self : Simulation) (r : Rocket.t) : Prop :=
  Rocket.pos r = Point.mk (Point.x (start self)) (Point.y (start self) + 3 - 50)
  /\ Rocket.angle r = 270%Z /\ Rocket.alive r = true.

(** The size of the pool after breeding, in the source's terms. *)
Definition pool_size (self : Simulation) : nat :=
  (length (rockets self) / 5
   + 2 * Z.to_nat ((population self
                    - Z.of_nat (length (rockets self) / 5)) ÷ 2))%nat.

(** Events that neither restart the simulation nor move the goal nor end
    the loop. *)
Definition quiet (event : Event) : bool :=
  match event with
  | KEYUP K_a | KEYUP K_z | KEYUP K_other | OtherEvent => true
  | MOUSEBUTTONUP button _ => negb (button =? 3)%Z
  | QUIT | KEYUP K_q | KEYUP K_r => false
  end.

(** The sum of the [n] instructions that a genome [g] gives from tick
    [tick] on. *)
Fixpoint instructions (g : list Z) (tick n : nat) : Z :=
  match n with
  | O => 0%Z
  | S k => (nth (tick mod length g) g 0 + instructions g (S tick) k)%Z
  end.

(** The events that set [done]. *)
Definition is_quit (event : Event) : bool :=
  match event with
  | QUIT | KEYUP K_q => true
  | _ => false
  end.

(** A frame rate that the keys can reach from 30: a multiple of 5 between
    5 and 300. *)
Definition fps_ok (f : Z) : Prop := (5 <= f <= 300)%Z /\ (f mod 5 = 0)%Z.

(** ** Data of the examples *)

(** A reading of [collidepoint] for the examples: the left and top edges
    belong to the rectangle, the right and bottom edges do not. *)
Definition in_rect (rect : Rect.t) (p : Point.t) : bool :=
  Rleb (IZR (Rect.left rect)) (Point.x p)
  && Rltb (Point.x p) (IZR (Rect.left rect + Rect.width rect))
  && Rleb (IZR (Rect.top rect)) (Point.y p)
  && Rltb (Point.y p) (IZR (Rect.top rect + Rect.height rect)).

(** The generator draws 0, 1, 2, ...; no rocket was made yet. *)
Definition demo_process : Process := mkProcess (fun n => n) 0 0 [].

(** A configuration with one obstacle. *)
Definition demo_config : Config.t :=
  Config.mk 10 [Rect.mk 100 400 200 20] (300, 750)%Z (300, 50)%Z.

(** Rocket number [i], every gene 7, heading 270. *)
Definition demo_rocket (i : nat) (fit : R) (live : bool) (at_ : Point.t)
  : Rocket.t :=
  Rocket.mk (repeat 7%Z 300) fit i live 270 at_.

(** A simulation of [demo_config] with the rockets [rs], at tick 0 of
    generation 1. *)
Definition demo_sim (rs : list Rocket.t) : Simulation :=
  mkSimulation (Rect_at_origin WIN_SIZE) rs 0 [Rect.mk 100 400 200 20] 1 0 30
    (Z.of_nat (length rs)) (Point.mk 300 750) (Point.mk 300 50).

(** The pad, [start + (0, 3 - 50)], and the goal. *)
Definition demo_pad : Point.t := Point.mk 300 703.
Definition demo_goal : Point.t := Point.mk 300 50.


(** [n] dead rockets lying on the goal. *)
Definition demo_dead_at_goal (n : nat) : list Rocket.t :=
  map (fun i => demo_rocket i 100 false demo_goal) (seq 0 n).

(** * Properties *)

(** ** Numbers *)

Lemma Rltb_lt (a b : R) : Rltb a b = true <-> a < b.
Proof.
  unfold Rltb. destruct (Rlt_dec a b); split; intros; try easy; discriminate.
Qed.

Lemma Rltb_ge (a b : R) : Rltb a b = false <-> b <= a.
Proof.
  unfold Rltb. destruct (Rlt_dec a b); split; intros; try easy; try lra.
Qed.

Lemma Int_part_between (x : R) (z : Z) :
  IZR z <= x < IZR z + 1 -> Int_part x = z.
Proof.
  intros H. symmetry. apply Int_part_spec. lra.
Qed.

(** [int(0.2 * n)] is the integer quotient of [n] by 5. *)
Lemma int_fifth (n : nat) : int (0.2 * INR n) = Z.of_nat (n / 5).
Proof.
  assert (Hn : (n = 5 * (n / 5) + n mod 5)%nat) by apply Nat.div_mod_eq.
  assert (Hr : (n mod 5 < 5)%nat) by (apply Nat.mod_upper_bound; lia).
  assert (Hq : INR n = 5 * INR (n / 5) + INR (n mod 5)).
  { rewrite Hn at 1. rewrite plus_INR, mult_INR. simpl. lra. }
  assert (H0 : 0 <= INR (n mod 5)) by apply pos_INR.
  assert (H5 : INR (n mod 5) < 5).
  { replace 5 with (INR 5) by (simpl; lra). now apply lt_INR. }
  assert (Hp : 0 <= INR (n / 5)) by apply pos_INR.
  unfold int. destruct (Rle_dec 0 (0.2 * INR n)) as [_ | Hneg]; [| exfalso; lra].
  apply Int_part_between. rewrite <- INR_IZR_INZ. lra.
Qed.

(** [int(z / 2)], a true division followed by a truncation, is the
    quotient rounded towards zero. *)
Lemma int_half (z : Z) : int (IZR z / 2) = (z ÷ 2)%Z.
Proof.
  assert (Hz : (z = 2 * (z ÷ 2) + Z.rem z 2)%Z) by (apply Z.quot_rem'; lia).
  unfold int. destruct (Rle_dec 0 (IZR z / 2)) as [Hpos | Hneg].
  - assert (0 <= z)%Z by (apply le_IZR; lra).
    assert (0 <= Z.rem z 2 < 2)%Z by (apply Z.rem_bound_pos; lia).
    apply Int_part_between.
    assert (Hq : IZR z = 2 * IZR (z ÷ 2) + IZR (Z.rem z 2)).
    { rewrite Hz at 1. now rewrite plus_IZR, mult_IZR. }
    assert (0 <= IZR (Z.rem z 2) <= 1).
    { split; [apply IZR_le | apply IZR_le]; lia. }
    lra.
  - assert (z < 0)%Z by (apply lt_IZR; lra).
    assert (-2 < Z.rem z 2 <= 0)%Z.
    { pose proof (Z.rem_bound_pos_neg z 2 ltac:(lia) ltac:(lia)). lia. }
    assert (Hq : IZR z = 2 * IZR (z ÷ 2) + IZR (Z.rem z 2)).
    { rewrite Hz at 1. now rewrite plus_IZR, mult_IZR. }
    assert (-1 <= IZR (Z.rem z 2) <= 0).
    { split; apply IZR_le; lia. }
    rewrite (Int_part_between (- (IZR z / 2)) (- (z ÷ 2))); [lia |].
    rewrite opp_IZR. lra.
Qed.


Lemma hypot_zero (a b : R) : math.hypot a b = 0 <-> a = 0 /\ b = 0.
Proof.
  unfold math.hypot. split.
  - intros H. apply sqrt_eq_0 in H; [| nra]. split; nra.
  - intros [-> ->]. replace (0 * 0 + 0 * 0) with 0 by lra. apply sqrt_0.
Qed.

(** ** Reasoning in the monads *)

Lemma bind_M {A B : Type} (c : M A) (k : A -> M B) (p : Process) :
  bind c k p =
  match c p with (Ok a, p') => k a p' | (Raise e, p') => (Raise e, p') end.
Proof. reflexivity. Qed.

Lemma repeat_m_S {A : Type} (n : nat) (c : M A) :
  repeat_m (S n) c = (a <- c ;; t <- repeat_m n c ;; ret (a :: t)).
Proof. reflexivity. Qed.

Lemma ret_M {A : Type} (a : A) (p : Process) : (ret a : M A) p = (Ok a, p).
Proof. reflexivity. Qed.

Lemma ensures_ret {A : Type} (a : A) (Q : A -> Prop) :
  Q a -> ensures (ret a) Q.
Proof. intros H p a' p' E. rewrite ret_M in E. now inversion E; subst. Qed.

Lemma ensures_bind {A B : Type} (c : M A) (k : A -> M B)
    (P : A -> Prop) (Q : B -> Prop) :
  ensures c P -> (forall a, P a -> ensures (k a) Q) -> ensures (bind c k) Q.
Proof.
  intros Hc Hk p b p' E. rewrite bind_M in E.
  destruct (c p) as [[a | e] p1] eqn:Ec; [| discriminate].
  eapply Hk; eauto.
Qed.

Lemma ensures_weaken {A : Type} (c : M A) (P Q : A -> Prop) :
  ensures c P -> (forall a, P a -> Q a) -> ensures c Q.
Proof. intros Hc HPQ p a p' E. eauto. Qed.

Lemma ensures_and {A : Type} (c : M A) (P Q : A -> Prop) :
  ensures c P -> ensures c Q -> ensures c (fun a => P a /\ Q a).
Proof. intros HP HQ p a p' E. split; eauto. Qed.

Lemma ensures_true {A : Type} (c : M A) : ensures c (fun _ => True).
Proof. now intros p a p' _. Qed.

Lemma ensures_for_each {A B : Type} (f : A -> M B) (Q : A -> B -> Prop)
    (l : list A) :
  (forall a, In a l -> ensures (f a) (Q a)) ->
  ensures (for_each f l) (Forall2 Q l).
Proof.
  induction l as [| a t IH]; intros H; simpl.
  - apply ensures_ret. constructor.
  - eapply ensures_bind; [apply H; now left |]. intros b Hb.
    eapply ensures_bind; [apply IH; intros; apply H; now right |].
    intros bs Hbs. apply ensures_ret. now constructor.
Qed.

Lemma ensures_repeat_m {A : Type} (c : M A) (Q : A -> Prop) (n : nat) :
  ensures c Q ->
  ensures (repeat_m n c) (fun l => length l = n /\ Forall Q l).
Proof.
  intros H. induction n as [| n IH]; simpl.
  - apply ensures_ret. split; [reflexivity | constructor].
  - eapply ensures_bind; [exact H |]. intros a Ha.
    eapply ensures_bind; [exact IH |]. intros l [Hl Hall].
    apply ensures_ret. split; [simpl; now rewrite Hl | now constructor].
Qed.

Lemma succeeds_ret {A : Type} (a : A) : succeeds (ret a).
Proof. intros p. now exists a, p. Qed.

Lemma succeeds_bind {A B : Type} (c : M A) (k : A -> M B) (P : A -> Prop) :
  succeeds c -> ensures c P -> (forall a, P a -> succeeds (k a)) ->
  succeeds (bind c k).
Proof.
  intros Hc HP Hk p. destruct (Hc p) as (a & p1 & Ec).
  destruct (Hk a (HP _ _ _ Ec) p1) as (b & p2 & Ek).
  exists b, p2. rewrite bind_M, Ec. exact Ek.
Qed.

Lemma succeeds_for_each {A B : Type} (f : A -> M B) (l : list A) :
  (forall a, In a l -> succeeds (f a)) -> succeeds (for_each f l).
Proof.
  induction l as [| a t IH]; intros H; simpl.
  - apply succeeds_ret.
  - eapply succeeds_bind; [apply H; now left | apply ensures_true |].
    intros b _. eapply succeeds_bind; [| apply ensures_true |].
    + apply IH. intros; apply H; now right.
    + intros bs _. apply succeeds_ret.
Qed.

Lemma succeeds_repeat_m {A : Type} (c : M A) (n : nat) :
  succeeds c -> succeeds (repeat_m n c).
Proof.
  intros H. induction n as [| n IH]; simpl.
  - apply succeeds_ret.
  - eapply succeeds_bind; [exact H | apply ensures_true |].
    intros a _. eapply succeeds_bind; [exact IH | apply ensures_true |].
    intros l _. apply succeeds_ret.
Qed.

Lemma steady_ret {A : Type} (a : A) : steady (ret a).
Proof. intros p r p' E. rewrite ret_M in E. inversion E. split; [reflexivity | lia]. Qed.

Lemma steady_raise {A : Type} (e : exn) : steady (@raise A e).
Proof. intros p r p' E. inversion E. split; [reflexivity | lia]. Qed.

Lemma steady_lift {A : Type} (r : result A) : steady (lift r).
Proof. intros p r' p' E. inversion E. split; [reflexivity | lia]. Qed.

Lemma steady_bind {A B : Type} (c : M A) (k : A -> M B) :
  steady c -> (forall a, steady (k a)) -> steady (bind c k).
Proof.
  intros Hc Hk p r p' E. rewrite bind_M in E.
  destruct (c p) as [[a | e] p1] eqn:Ec.
  - destruct (Hc _ _ _ Ec) as [H1 H2]. destruct (Hk _ _ _ _ E) as [H3 H4].
    split; [congruence | lia].
  - inversion E; subst. eauto.
Qed.

Lemma steady_for_each {A B : Type} (f : A -> M B) (l : list A) :
  (forall a, steady (f a)) -> steady (for_each f l).
Proof.
  intros H. induction l as [| a t IH]; simpl.
  - apply steady_ret.
  - apply steady_bind; [apply H |]. intros b.
    apply steady_bind; [exact IH |]. intros bs. apply steady_ret.
Qed.

Lemma steady_repeat_m {A : Type} (c : M A) (n : nat) :
  steady c -> steady (repeat_m n c).
Proof.
  intros H. induction n as [| n IH]; simpl.
  - apply steady_ret.
  - apply steady_bind; [exact H |]. intros a.
    apply steady_bind; [exact IH |]. intros l. apply steady_ret.
Qed.

(** The same for [result]. *)
Lemma for_each_result_Forall2 {A B : Type} (f : A -> result B)
    (l : list A) (l' : list B) :
  for_each f l = Ok l' -> Forall2 (fun a b => f a = Ok b) l l'.
Proof.
  revert l'. induction l as [| a t IH]; simpl; intros l' E.
  - inversion E. constructor.
  - destruct (f a) as [b | e] eqn:Ea; [| discriminate].
    destruct (for_each f t) as [bs | e]; [| discriminate].
    inversion E; subst. constructor; auto.
Qed.

Lemma for_each_result_total {A B : Type} (f : A -> result B) (l : list A) :
  (forall a, In a l -> exists b, f a = Ok b) -> exists l', for_each f l = Ok l'.
Proof.
  induction l as [| a t IH]; intros H; simpl.
  - now exists [].
  - destruct (H a (or_introl eq_refl)) as [b ->].
    destruct IH as [bs ->]; [intros; apply H; now right |].
    now exists (b :: bs).
Qed.

(** ** The generator and the constructor of [Rocket] *)

Lemma raw_succeeds : succeeds random.raw.
Proof. intros p. now eexists _, _. Qed.

Lemma raw_steady : steady random.raw.
Proof. intros p r p' E. inversion E. split; [reflexivity | simpl; lia]. Qed.

Lemma randint_succeeds (a b : Z) : (a <= b)%Z -> succeeds (random.randint a b).
Proof.
  intros H. unfold random.randint.
  destruct (Z.ltb_spec b a); [lia |].
  eapply succeeds_bind; [apply raw_succeeds | apply ensures_true |].
  intros n _. apply succeeds_ret.
Qed.

Lemma randint_range (a b : Z) :
  ensures (random.randint a b) (fun z => (a <= z <= b)%Z).
Proof.
  unfold random.randint. destruct (Z.ltb_spec b a).
  - intros p z p' E. discriminate.
  - eapply ensures_bind; [apply ensures_true |]. intros n _.
    apply ensures_ret.
    pose proof (Z.mod_pos_bound (Z.of_nat n) (b - a + 1)). lia.
Qed.

Lemma randint_steady (a b : Z) : steady (random.randint a b).
Proof.
  unfold random.randint. destruct (b <? a)%Z.
  - apply steady_raise.
  - apply steady_bind; [apply raw_steady |].
    intros n. apply steady_ret.
Qed.

Lemma uniform_succeeds (a b : Q) : succeeds (random.uniform a b).
Proof.
  unfold random.uniform, random.random.
  eapply succeeds_bind; [| apply ensures_true | intros; apply succeeds_ret].
  eapply succeeds_bind; [apply raw_succeeds | apply ensures_true |].
  intros; apply succeeds_ret.
Qed.

Lemma uniform_steady (a b : Q) : steady (random.uniform a b).
Proof.
  unfold random.uniform, random.random.
  apply steady_bind; [| intros; apply steady_ret].
  apply steady_bind; [apply raw_steady |].
  intros; apply steady_ret.
Qed.

Lemma choice_In {A : Type} (seq : list A) :
  ensures (random.choice seq) (fun a => In a seq).
Proof.
  destruct seq as [| a t]; unfold random.choice.
  - intros p b p' E. discriminate.
  - eapply ensures_bind; [apply ensures_true |]. intros n _.
    apply ensures_ret. apply nth_In.
    apply Nat.mod_upper_bound. simpl. lia.
Qed.

Lemma choice_succeeds {A : Type} (seq : list A) :
  seq <> [] -> succeeds (random.choice seq).
Proof.
  destruct seq as [| a t]; [congruence |]. intros _. unfold random.choice.
  eapply succeeds_bind; [apply raw_succeeds | apply ensures_true |].
  intros; apply succeeds_ret.
Qed.

Lemma choice_steady {A : Type} (seq : list A) :
  steady (random.choice seq).
Proof.
  destruct seq as [| a t]; unfold random.choice.
  - apply steady_raise.
  - apply steady_bind; [apply raw_steady |].
    intros; apply steady_ret.
Qed.

Lemma next_id_succeeds : succeeds Rocket.next_id.
Proof. intros p. now eexists _, _. Qed.

Lemma next_id_steady : steady Rocket.next_id.
Proof. intros p r p' E. inversion E. split; [reflexivity | simpl; lia]. Qed.

Lemma Rocket_init_succeeds : succeeds Rocket.__init__.
Proof.
  unfold Rocket.__init__.
  eapply succeeds_bind;
    [apply succeeds_repeat_m, randint_succeeds; lia | apply ensures_true |].
  intros g _.
  eapply succeeds_bind; [apply next_id_succeeds | apply ensures_true |].
  intros; apply succeeds_ret.
Qed.

(** A rocket is made with 300 genes of [-7..7], unevaluated and alive. *)
Lemma Rocket_init_spec :
  ensures Rocket.__init__
    (fun r => genome_ok r /\ Rocket.fitness r = -1 /\ Rocket.alive r = true
              /\ Rocket.angle r = 0%Z /\ Rocket.pos r = Point.mk 0 0).
Proof.
  unfold Rocket.__init__.
  eapply ensures_bind; [apply ensures_repeat_m, randint_range |].
  intros g [Hlen Hall].
  eapply ensures_bind; [apply ensures_true |]. intros i _.
  apply ensures_ret. repeat split; auto.
Qed.

Lemma Rocket_init_steady : steady Rocket.__init__.
Proof.
  unfold Rocket.__init__.
  apply steady_bind;
    [apply steady_repeat_m, randint_steady |].
  intros g. apply steady_bind; [apply next_id_steady |].
  intros; apply steady_ret.
Qed.

(** ** Sorting by fitness *)

Lemma has_fitness_true (k : R) (r : Rocket.t) :
  has_fitness k r = true <-> Rocket.fitness r = k.
Proof.
  unfold has_fitness. destruct (Req_dec_T (Rocket.fitness r) k);
    split; intros; try easy; discriminate.
Qed.

Lemma has_fitness_self (r : Rocket.t) : has_fitness (Rocket.fitness r) r = true.
Proof. now apply has_fitness_true. Qed.

Lemma insert_perm {A : Type} (before : A -> A -> bool) (a : A) (l : list A) :
  Permutation (insert before a l) (a :: l).
Proof.
  induction l as [| b t IH]; simpl; [reflexivity |].
  destruct (before b a); [| reflexivity].
  rewrite IH. apply perm_swap.
Qed.

Lemma sorted_perm {A : Type} (before : A -> A -> bool) (l : list A) :
  Permutation (sorted before l) l.
Proof.
  induction l as [| a t IH]; simpl; [reflexivity |].
  fold (sorted before t). rewrite insert_perm. now constructor.
Qed.

Lemma sorted_length {A : Type} (before : A -> A -> bool) (l : list A) :
  length (sorted before l) = length l.
Proof. apply Permutation_length, sorted_perm. Qed.

Lemma insert_fitter_sorted (a : Rocket.t) (l : list Rocket.t) :
  StronglySorted (fun a b => Rocket.fitness b <= Rocket.fitness a) l ->
  StronglySorted (fun a b => Rocket.fitness b <= Rocket.fitness a)
                 (insert fitter a l).
Proof.
  induction 1 as [| b t Hs IH Hb]; simpl.
  - repeat constructor.
  - unfold fitter at 1. destruct (Rltb (Rocket.fitness a) (Rocket.fitness b)) eqn:E.
    + apply Rltb_lt in E. constructor; [exact IH |].
      rewrite (insert_perm fitter a t). constructor; [lra | exact Hb].
    + apply Rltb_ge in E. constructor; [now constructor |].
      constructor; [exact E |].
      eapply Forall_impl; [| exact Hb]. simpl. intros c Hc. lra.
Qed.

Lemma insert_fitter_filter (k : R) (a : Rocket.t) (l : list Rocket.t) :
  filter (has_fitness k) (insert fitter a l) =
  if has_fitness k a then a :: filter (has_fitness k) l
  else filter (has_fitness k) l.
Proof.
  induction l as [| b t IH]; simpl.
  - now destruct (has_fitness k a).
  - unfold fitter at 1. destruct (Rltb (Rocket.fitness a) (Rocket.fitness b)) eqn:E.
    + apply Rltb_lt in E. simpl. rewrite IH.
      destruct (has_fitness k a) eqn:Ha; [| reflexivity].
      apply has_fitness_true in Ha.
      destruct (has_fitness k b) eqn:Hb; [| reflexivity].
      apply has_fitness_true in Hb. lra.
    + simpl. now destruct (has_fitness k a).
Qed.

(** The model of [sorted] is a stable descending sort. *)
Lemma sorted_fitter_stable (l : list Rocket.t) :
  stable_desc_sort_of l (sorted fitter l).
Proof.
  split.
  - induction l as [| a t IH]; simpl; [constructor |].
    now apply insert_fitter_sorted.
  - intros k. induction l as [| a t IH]; simpl; [reflexivity |].
    fold (sorted fitter t). rewrite insert_fitter_filter, IH.
    now destruct (has_fitness k a).
Qed.

Lemma filter_In_self (a : Rocket.t) (l : list Rocket.t) :
  In a l -> In a (filter (has_fitness (Rocket.fitness a)) l).
Proof. intros H. apply filter_In. split; [exact H | apply has_fitness_self]. Qed.

(** There is only one such sort. *)
Lemma stable_desc_sort_unique (l1 l2 : list Rocket.t) :
  StronglySorted (fun a b => Rocket.fitness b <= Rocket.fitness a) l1 ->
  StronglySorted (fun a b => Rocket.fitness b <= Rocket.fitness a) l2 ->
  (forall k, filter (has_fitness k) l1 = filter (has_fitness k) l2) ->
  l1 = l2.
Proof.
  intros H1. revert l2. induction H1 as [| a t1 Hs1 IH Ha]; intros l2 H2 Hf.
  - destruct l2 as [| b t2]; [reflexivity |].
    specialize (Hf (Rocket.fitness b)). simpl in Hf.
    rewrite has_fitness_self in Hf. discriminate.
  - destruct l2 as [| b t2].
    + specialize (Hf (Rocket.fitness a)). simpl in Hf.
      rewrite has_fitness_self in Hf. discriminate.
    + inversion H2 as [| b' t2' Hs2 Hb]; subst.
      assert (Hab : a = b).
      { pose proof (Hf (Rocket.fitness a)) as Fa. simpl in Fa.
        rewrite has_fitness_self in Fa.
        destruct (has_fitness (Rocket.fitness a) b) eqn:Eb;
          [now inversion Fa |].
        pose proof (Hf (Rocket.fitness b)) as Fb. simpl in Fb.
        rewrite has_fitness_self in Fb.
        destruct (has_fitness (Rocket.fitness b) a) eqn:Ea.
        { apply has_fitness_true in Ea.
          assert (has_fitness (Rocket.fitness a) b = true)
            by now apply has_fitness_true.
          congruence. }
        assert (In a t2).
        { assert (In a (filter (has_fitness (Rocket.fitness a)) t2))
            by (rewrite <- Fa; now left).
          eapply filter_In; eauto. }
        assert (In b t1).
        { assert (In b (filter (has_fitness (Rocket.fitness b)) t1))
            by (rewrite Fb; now left).
          eapply filter_In; eauto. }
        rewrite Forall_forall in Ha, Hb.
        pose proof (Ha b ltac:(assumption)).
        pose proof (Hb a ltac:(assumption)).
        assert (Rocket.fitness a = Rocket.fitness b) by lra.
        assert (has_fitness (Rocket.fitness a) b = true)
          by now apply has_fitness_true.
        congruence. }
      subst b. f_equal. apply IH; [exact Hs2 |].
      intros k. specialize (Hf k). simpl in Hf.
      destruct (has_fitness k a); [now inversion Hf | exact Hf].
Qed.

(** ** One simulation step *)

Lemma obstacles_fold (obs : list Rect.t) (r : Rocket.t) :
  let r' := fold_left (fun rocket o =>
                         if collidepoint o (Rocket.pos rocket)
                         then Rocket.set_alive rocket false else rocket)
                      obs r in
  Rocket.genome r' = Rocket.genome r /\ Rocket.fitness r' = Rocket.fitness r
  /\ Rocket.id r' = Rocket.id r /\ Rocket.angle r' = Rocket.angle r
  /\ Rocket.pos r' = Rocket.pos r
  /\ (Rocket.alive r' = false <->
      Rocket.alive r = false
      \/ exists o, In o obs /\ collidepoint o (Rocket.pos r) = true).
Proof.
  revert r. induction obs as [| o t IH]; intros r; simpl.
  - repeat split; auto. intros [H | (o & [] & _)]; exact H.
  - destruct (collidepoint o (Rocket.pos r)) eqn:Eo.
    + destruct (IH (Rocket.set_alive r false)) as (Hg & Hf & Hi & Ha & Hp & Hl).
      simpl in *. repeat split; auto.
      * intros _. right. exists o. auto.
      * intros _. apply Hl. now left.
    + destruct (IH r) as (Hg & Hf & Hi & Ha & Hp & Hl).
      repeat split; auto.
      * intros H. apply Hl in H. destruct H as [H | (o' & Hin & Ho')]; auto.
        right. exists o'. auto.
      * intros [H | (o' & [<- | Hin] & Ho')]; apply Hl; auto.
        -- congruence.
        -- right. exists o'. auto.
Qed.

Lemma check_rocket_spec (self : Simulation) (r : Rocket.t) :
  let r' := check_rocket self r in
  Rocket.genome r' = Rocket.genome r /\ Rocket.fitness r' = Rocket.fitness r
  /\ Rocket.id r' = Rocket.id r /\ Rocket.angle r' = Rocket.angle r
  /\ Rocket.pos r' = Rocket.pos r
  /\ (Rocket.alive r' = false <->
      Rocket.alive r = false \/ collision_at self (Rocket.pos r)).
Proof.
  unfold check_rocket, collision_at.
  set (px := Point.x (Rocket.pos r)). set (py := Point.y (Rocket.pos r)).
  set (W := IZR (Rect.width (win_size self))).
  set (H := IZR (Rect.height (win_size self))).
  match goal with
  | |- context [fold_left ?f ?l ?a] =>
      destruct (obstacles_fold l a) as (Hg & Hf & Hi & Ha & Hp & Hl);
      set (r1 := a) in *
  end.
  assert (Hr1 : Rocket.genome r1 = Rocket.genome r
                /\ Rocket.fitness r1 = Rocket.fitness r
                /\ Rocket.id r1 = Rocket.id r /\ Rocket.angle r1 = Rocket.angle r
                /\ Rocket.pos r1 = Rocket.pos r
                /\ (Rocket.alive r1 = false <->
                    Rocket.alive r = false \/ px < 0 \/ W < px \/ py < 0 \/ H < py)).
  { unfold r1.
    destruct (Rltb px 0) eqn:E1; [apply Rltb_lt in E1 | apply Rltb_ge in E1];
    destruct (Rltb W px) eqn:E2; [apply Rltb_lt in E2 | apply Rltb_ge in E2 | apply Rltb_lt in E2 | apply Rltb_ge in E2];
    simpl; try (repeat split; auto; fail).
    destruct (Rltb py 0) eqn:E3; [apply Rltb_lt in E3 | apply Rltb_ge in E3];
    destruct (Rltb H py) eqn:E4; [apply Rltb_lt in E4 | apply Rltb_ge in E4 | apply Rltb_lt in E4 | apply Rltb_ge in E4];
    simpl; try (repeat split; auto; fail).
    repeat split; auto. intros [? | [? | [? | [? | ?]]]]; auto; lra. }
  destruct Hr1 as (Hg1 & Hf1 & Hi1 & Ha1 & Hp1 & Hl1).
  simpl. repeat split; try congruence.
  - intros Hd. apply Hl in Hd. destruct Hd as [Hd | (o & Hin & Ho)].
    + apply Hl1 in Hd. tauto.
    + right. do 4 right. exists o. split; [exact Hin | congruence].
  - intros Hd. apply Hl.
    destruct Hd as [Hd | [Hd | [Hd | [Hd | [Hd | (o & Hin & Ho)]]]]];
      try (left; apply Hl1; tauto).
    right. exists o. split; [exact Hin | congruence].
Qed.

Lemma update_rocket_dead (self : Simulation) (r : Rocket.t) :
  Rocket.alive r = false -> update_rocket self r = Ok r.
Proof. intros H. unfold update_rocket. now rewrite H. Qed.

Lemma update_rocket_alive (self : Simulation) (r m : Rocket.t) :
  Rocket.alive r = true -> update_rocket self r = Ok m ->
  exists d,
    nth_error (Rocket.genome r) (index self mod length (Rocket.genome r)) = Some d
    /\ m = Rocket.set_angle (Rocket.apply_force r 3) (Rocket.angle r + d).
Proof.
  intros H E. unfold update_rocket in E. rewrite H in E. simpl in E.
  unfold mod_ in E. destruct (length (Rocket.genome r)) as [| k] eqn:El;
    [discriminate |].
  simpl bind in E. unfold getitem in E.
  destruct (nth_error (Rocket.genome r) (index self mod S k)) as [d |] eqn:Ed;
    [| discriminate].
  inversion E; subst. now exists d.
Qed.

Lemma update_rocket_total (self : Simulation) (r : Rocket.t) :
  Rocket.genome r <> [] -> exists m, update_rocket self r = Ok m.
Proof.
  intros H. unfold update_rocket. destruct (Rocket.alive r); [| now eexists].
  simpl. unfold mod_.
  destruct (length (Rocket.genome r)) as [| k] eqn:El.
  - destruct (Rocket.genome r); [congruence | discriminate].
  - simpl bind. unfold getitem.
    destruct (nth_error (Rocket.genome r) (index self mod S k)) as [d |] eqn:Ed.
    + now eexists.
    + apply nth_error_None in Ed.
      pose proof (Nat.mod_upper_bound (index self) (S k)). lia.
Qed.

Lemma fitness_body_inv (self : Simulation) (m r' : Rocket.t) :
  (q <- truediv (_distance (Rocket.pos m) (goal self))
                (_distance (start self) (goal self)) ;;
   ret (Rocket.set_fitness m (100 - q * 100))) = Ok r' ->
  exists q,
    truediv (_distance (Rocket.pos m) (goal self))
            (_distance (start self) (goal self)) = Ok q
    /\ r' = Rocket.set_fitness m (100 - q * 100).
Proof.
  simpl. destruct (truediv _ _) as [q | e]; [| discriminate].
  intros E. inversion E. now exists q.
Qed.

Lemma update_steps (self self' : Simulation) :
  update self = Ok self' ->
  Forall2 (rocket_step self) (rockets self) (rockets self')
  /\ index self' = (index self + 1)%nat
  /\ generation self' = generation self
  /\ start self' = start self /\ goal self' = goal self
  /\ obstacles self' = obstacles self /\ win_size self' = win_size self
  /\ population self' = population self.
Proof.
  unfold update. simpl.
  destruct (for_each (update_rocket self) (rockets self)) as [moved | e] eqn:Em;
    [| discriminate].
  unfold _fitness, _check_collision. simpl.
  match goal with
  | |- match for_each ?g ?l with _ => _ end = _ -> _ =>
      destruct (for_each g l) as [scored | e] eqn:Es; [| discriminate]
  end.
  intros E. inversion E; subst; clear E. simpl. repeat split; auto.
  apply for_each_result_Forall2 in Em. apply for_each_result_Forall2 in Es.
  revert scored Es. induction Em as [| r m t moved' Hm Ht IH]; intros scored Es.
  - inversion Es. constructor.
  - simpl in Es. inversion Es as [| cm r' ct scored' Hr' Hs']; subst.
    constructor; [| now apply IH].
    apply fitness_body_inv in Hr'. destruct Hr' as (q & Hq & ->).
    exists m, q. repeat split; auto.
    destruct (check_rocket_spec self m) as (_ & _ & _ & _ & Hp & _).
    simpl in Hp. unfold check_rocket in Hp, Hq. simpl in Hp, Hq.
    unfold check_rocket in *. rewrite <- Hp. exact Hq.
Qed.

Lemma start_goal_distance (self : Simulation) :
  _distance (start self) (goal self) = 0 <-> start self = goal self.
Proof.
  unfold _distance. rewrite hypot_zero.
  destruct (start self) as [sx sy], (goal self) as [gx gy]. simpl. split.
  - intros [Hx Hy]. f_equal; lra.
  - intros E. inversion E. split; lra.
Qed.

Lemma truediv_total (a b : R) : b <> 0 -> truediv a b = Ok (a / b).
Proof. intros H. unfold truediv. now destruct (Req_dec_T b 0). Qed.

Lemma truediv_zero (a : R) : truediv a 0 = Raise ZeroDivisionError.
Proof. unfold truediv. destruct (Req_dec_T 0 0); [reflexivity | congruence]. Qed.

(** [_fitness] returns as soon as start and goal differ. *)
Lemma fitness_total (self : Simulation) (rs : list Rocket.t) :
  start self <> goal self ->
  exists rs',
    _fitness self rs = Ok rs'
    /\ Forall2 (fun r r' =>
                  r' = Rocket.set_fitness r
                         (100 - _distance (Rocket.pos r) (goal self)
                                / _distance (start self) (goal self) * 100))
               rs rs'.
Proof.
  intros Hne. unfold _fitness.
  assert (Hd : _distance (start self) (goal self) <> 0)
    by (intros E; now apply start_goal_distance in E).
  induction rs as [| r t (rs' & Et & Ft)]; simpl.
  - exists []. split; [reflexivity | constructor].
  - rewrite (truediv_total _ _ Hd). simpl. simpl in Et. rewrite Et.
    eexists. split; [reflexivity |]. constructor; [reflexivity | exact Ft].
Qed.

(** [update] returns when start and goal differ and no genome is empty. *)
Lemma update_total (self : Simulation) :
  start self <> goal self ->
  Forall (fun r => Rocket.genome r <> []) (rockets self) ->
  exists self', update self = Ok self'.
Proof.
  intros Hne Hg. unfold update.
  destruct (for_each_result_total (update_rocket self) (rockets self)) as [moved Em].
  { intros r Hr. apply update_rocket_total.
    rewrite Forall_forall in Hg. now apply Hg. }
  rewrite Em. simpl.
  match goal with
  | |- context [_fitness ?s ?l] =>
      destruct (fitness_total s l Hne) as (scored & Es & _)
  end.
  rewrite Es. now eexists.
Qed.

Lemma rocket_step_alive (self : Simulation) (r r' : Rocket.t) :
  rocket_step self r r' ->
  Rocket.alive r = true ->
  exists d,
    nth_error (Rocket.genome r) (index self mod length (Rocket.genome r)) = Some d
    /\ Rocket.angle r' = (Rocket.angle r + d)%Z
    /\ Rocket.pos r' =
       Point.mk
         (Point.x (Rocket.pos r) + cos (math.radians (IZR (Rocket.angle r))) * 3)
         (Point.y (Rocket.pos r) + sin (math.radians (IZR (Rocket.angle r))) * 3).
Proof.
  intros (m & q & Hm & _ & ->) Ha.
  destruct (update_rocket_alive _ _ _ Ha Hm) as (d & Hd & ->).
  exists d. split; [exact Hd |].
  destruct (check_rocket_spec self
              (Rocket.set_angle (Rocket.apply_force r 3) (Rocket.angle r + d)))
    as (_ & _ & _ & Hang & Hpos & _).
  simpl in *. now rewrite Hang, Hpos.
Qed.

Lemma rocket_step_liveness (self : Simulation) (r r' : Rocket.t) :
  rocket_step self r r' ->
  (Rocket.alive r' = false <->
   Rocket.alive r = false \/ collision_at self (Rocket.pos r')).
Proof.
  intros (m & q & Hm & _ & ->).
  destruct (check_rocket_spec self m) as (_ & _ & _ & _ & Hpos & Hl).
  simpl in *. rewrite Hpos.
  assert (Hal : Rocket.alive m = Rocket.alive r).
  { destruct (Rocket.alive r) eqn:Ha.
    - destruct (update_rocket_alive _ _ _ Ha Hm) as (d & _ & ->). exact Ha.
    - rewrite (update_rocket_dead _ _ Ha) in Hm. inversion Hm; now subst. }
  now rewrite <- Hal.
Qed.

Lemma rocket_step_dead (self : Simulation) (r r' : Rocket.t) :
  rocket_step self r r' ->
  Rocket.alive r = false ->
  Rocket.pos r' = Rocket.pos r /\ Rocket.angle r' = Rocket.angle r
  /\ Rocket.alive r' = false.
Proof.
  intros Hs Ha. pose proof (rocket_step_liveness _ _ _ Hs) as Hl.
  destruct Hs as (m & q & Hm & _ & ->).
  rewrite (update_rocket_dead _ _ Ha) in Hm. inversion Hm; subst m.
  destruct (check_rocket_spec self r) as (_ & _ & _ & Hang & Hpos & _).
  simpl in *. repeat split; auto. apply Hl. now left.
Qed.

(** C1 (as amended): in one simulation step an alive agent first moves by
    force 3 along the heading it had before the step, and only then adds
    the tick's genome instruction to its heading:
    position' = position + 3*(cos(rad(heading)), sin(rad(heading))) and
    heading' = heading + headingDelta.  The instruction selected for a
    tick therefore shows in the displacement of the next tick. *)
Theorem update_moves_then_turns (self self' : Simulation) :
  update self = Ok self' ->
  Forall2
    (fun r r' =>
       Rocket.alive r = true ->
       exists headingDelta,
         nth_error (Rocket.genome r)
                   (index self mod length (Rocket.genome r)) = Some headingDelta
         /\ Rocket.angle r' = (Rocket.angle r + headingDelta)%Z
         /\ Rocket.pos r' =
            Point.mk
              (Point.x (Rocket.pos r)
               + cos (math.radians (IZR (Rocket.angle r))) * 3)
              (Point.y (Rocket.pos r)
               + sin (math.radians (IZR (Rocket.angle r))) * 3))
    (rockets self) (rockets self').
Proof.
  intros E. apply update_steps in E. destruct E as (Hs & _).
  eapply Forall2_impl; [| exact Hs].
  intros r r' Hstep Ha. now apply rocket_step_alive.
Qed.

(** C8: an agent whose alive flag is false keeps its position and its
    heading, and stays dead, through any number of simulation steps. *)
Theorem dead_rockets_are_frozen (n : nat) (self self' : Simulation) :
  updates n self = Ok self' ->
  Forall2
    (fun r r' =>
       Rocket.alive r = false ->
       Rocket.pos r' = Rocket.pos r /\ Rocket.angle r' = Rocket.angle r
       /\ Rocket.alive r' = false)
    (rockets self) (rockets self').
Proof.
  revert self. induction n as [| n IH]; intros self E; simpl in E.
  - inversion E; subst. induction (rockets self'); constructor; auto.
  - destruct (update self) as [mid | e] eqn:Eu; [| discriminate].
    apply update_steps in Eu. destruct Eu as (Hs & _).
    specialize (IH _ E). revert IH. generalize (rockets self').
    induction Hs as [| r m t mids Hrm Ht IHt]; intros l' Hl'.
    + inversion Hl'. constructor.
    + inversion Hl' as [| m' r' mids' t' Hmr Hrest]; subst.
      constructor; [| now apply IHt].
      intros Ha. destruct (rocket_step_dead _ _ _ Hrm Ha) as (Hp & Hg & Hd).
      destruct (Hmr Hd) as (Hp' & Hg' & Hd'). repeat split; congruence.
Qed.

(** C9: after the collision pass of a simulation step an agent is dead
    exactly when it was dead before the step or its position after the
    move is outside the window (x < 0, x > width, y < 0 or y > height) or
    inside an obstacle; so every agent at such a position is dead, and
    only the position after the move is looked at. *)
Theorem collision_pass_kills (self self' : Simulation) :
  update self = Ok self' ->
  Forall2
    (fun r r' =>
       Rocket.alive r' = false <->
       Rocket.alive r = false \/ collision_at self' (Rocket.pos r'))
    (rockets self) (rockets self')
  /\ Forall
       (fun r' => collision_at self' (Rocket.pos r') -> Rocket.alive r' = false)
       (rockets self').
Proof.
  intros E. apply update_steps in E.
  destruct E as (Hs & _ & _ & _ & _ & Ho & Hw & _).
  assert (Hc : forall p, collision_at self' p <-> collision_at self p).
  { intros p. unfold collision_at. now rewrite Ho, Hw. }
  assert (H2 : Forall2
                 (fun r r' =>
                    Rocket.alive r' = false <->
                    Rocket.alive r = false \/ collision_at self' (Rocket.pos r'))
                 (rockets self) (rockets self')).
  { eapply Forall2_impl; [| exact Hs].
    intros r r' Hstep. rewrite Hc. now apply rocket_step_liveness. }
  split; [exact H2 |].
  clear Hs. induction H2 as [| r r' t t' Hr Ht IH]; constructor; auto.
  intros Hcol. apply Hr. now right.
Qed.

(** ** Fitness *)








(** C10: the fitness pass divides by distance(start, goal) unguarded.
    When start and goal differ the division never fails and the pass
    returns for every list of agents; when start == goal the pass raises
    ZeroDivisionError at the first agent it scores. *)
Theorem fitness_division_by_zero (self : Simulation) :
  (start self <> goal self ->
   forall rs p,
     truediv (_distance p (goal self)) (_distance (start self) (goal self))
     = Ok (_distance p (goal self) / _distance (start self) (goal self))
     /\ exists rs', _fitness self rs = Ok rs')
  /\ (start self = goal self ->
      forall r rs, _fitness self (r :: rs) = Raise ZeroDivisionError).
Proof.
  split.
  - intros Hne rs p. split.
    + apply truediv_total. intros E. now apply start_goal_distance in E.
    + destruct (fitness_total self rs Hne) as (rs' & E & _). now exists rs'.
  - intros Heq r rs. unfold _fitness. simpl.
    apply start_goal_distance in Heq. rewrite Heq, truediv_zero. reflexivity.
Qed.

(** ** Selection *)

Lemma selection_run (rs : list Rocket.t) (p : Process) :
  _selection rs p =
  (Ok (firstn (length rs / 5) (sorted fitter rs)),
   mkProcess (entropy p) (S (drawn p)) (_id p) (calls p)).
Proof.
  unfold _selection, random.uniform, random.random.
  rewrite !bind_M. unfold random.raw. rewrite !ret_M.
  now rewrite sorted_length, int_fifth, Nat2Z.id.
Qed.

(** C3: selection returns exactly the first E = floor(0.2 * |population|)
    agents of the stable descending sort of the population by fitness
    (equal fitness keeps the population order), whatever the random draw
    is: the branch that appends the two least fit agents to the sorted
    list changes nothing of what is returned; a call consumes one draw. *)
Theorem selection_returns_stable_top (rs l' : list Rocket.t) (p : Process) :
  stable_desc_sort_of rs l' ->
  Z.to_nat (int (0.2 * INR (length rs))) = (length rs / 5)%nat
  /\ _selection rs p =
     (Ok (firstn (length rs / 5) l'),
      mkProcess (entropy p) (S (drawn p)) (_id p) (calls p)).
Proof.
  intros [Hs Hf]. split; [now rewrite int_fifth, Nat2Z.id |].
  rewrite selection_run. do 3 f_equal.
  destruct (sorted_fitter_stable rs) as [Hs' Hf'].
  apply stable_desc_sort_unique; auto. intros k. now rewrite Hf, Hf'.
Qed.

(** ** Crossover *)

Arguments Rocket.__init__ : simpl never.

(** The number of rounds of the loop of [_crossover]. *)
Lemma crossover_rounds (P : Z) (len : nat) :
  Z.to_nat (int (IZR (P - Z.of_nat len) / 2)) = Z.to_nat ((P - Z.of_nat len) ÷ 2).
Proof. now rewrite int_half. Qed.

Lemma rounds_nat (N E : nat) :
  (E <= N)%nat ->
  Z.to_nat ((Z.of_nat N - Z.of_nat E) ÷ 2) = ((N - E) / 2)%nat.
Proof.
  intros H. rewrite <- Nat2Z.inj_sub by exact H.
  rewrite Z.quot_div_nonneg by lia.
  change 2%Z with (Z.of_nat 2). rewrite <- Nat2Z.inj_div. apply Nat2Z.id.
Qed.

Lemma spliced_genome (split : nat) (g1 g2 : list Z) :
  length g1 = 300%nat -> length g2 = 300%nat -> (split <= 300)%nat ->
  Forall gene_ok g1 -> Forall gene_ok g2 ->
  length (firstn split g1 ++ skipn split g2) = 300%nat
  /\ Forall gene_ok (firstn split g1 ++ skipn split g2).
Proof.
  intros L1 L2 Hs F1 F2. split.
  - rewrite length_app, length_firstn, length_skipn. lia.
  - apply Forall_app. split.
    + rewrite <- (firstn_skipn split g1) in F1. now apply Forall_app in F1.
    + rewrite <- (firstn_skipn split g2) in F2. now apply Forall_app in F2.
Qed.

(** A round yields two children; their genomes are well formed when the
    genomes of the pool are. *)
Lemma crossover_round_spec (rockets : list Rocket.t) :
  ensures (crossover_round rockets)
    (fun l => length l = 2%nat
              /\ (Forall genome_ok rockets -> Forall genome_ok l)).
Proof.
  unfold crossover_round.
  eapply ensures_bind; [apply choice_In |]. intros parent1 H1.
  eapply ensures_bind; [apply choice_In |]. intros parent2 H2.
  apply filter_In in H2. destruct H2 as [H2 _].
  eapply ensures_bind; [apply ensures_true |]. intros child1 _.
  eapply ensures_bind; [apply ensures_true |]. intros child2 _.
  eapply ensures_bind; [apply randint_range |]. intros split Hsplit.
  apply ensures_ret. split; [reflexivity |].
  intros Hall. rewrite Forall_forall in Hall.
  destruct (Hall _ H1) as [L1 F1]. destruct (Hall _ H2) as [L2 F2].
  rewrite L1 in Hsplit.
  assert (Hs : (Z.to_nat split <= 300)%nat) by lia.
  repeat constructor; simpl; now apply spliced_genome.
Qed.

Lemma other_parent (rockets : list Rocket.t) (parent1 : Rocket.t) :
  NoDup (map Rocket.id rockets) -> (2 <= length rockets)%nat ->
  filter (fun r => negb (Rocket.id r =? Rocket.id parent1)%nat) rockets <> [].
Proof.
  destruct rockets as [| a [| b t]]; simpl; try lia. intros Hnd _.
  inversion Hnd as [| ? ? Hnotin _]; subst.
  assert (Hab : Rocket.id a <> Rocket.id b) by (intros E; apply Hnotin; now left).
  destruct (Nat.eqb_spec (Rocket.id a) (Rocket.id parent1)) as [Ea | Ea]; simpl;
    [| discriminate].
  destruct (Nat.eqb_spec (Rocket.id b) (Rocket.id parent1)) as [Eb | Eb]; simpl;
    [congruence | discriminate].
Qed.

Lemma crossover_round_succeeds (rockets : list Rocket.t) :
  NoDup (map Rocket.id rockets) -> (2 <= length rockets)%nat ->
  succeeds (crossover_round rockets).
Proof.
  intros Hnd Hlen. unfold crossover_round.
  eapply succeeds_bind; [| apply ensures_true |].
  { apply choice_succeeds. destruct rockets; simpl in *; [lia | discriminate]. }
  intros parent1 _.
  eapply succeeds_bind; [| apply ensures_true |].
  { apply choice_succeeds. now apply other_parent. }
  intros parent2 _.
  eapply succeeds_bind; [apply Rocket_init_succeeds | apply ensures_true |].
  intros child1 _.
  eapply succeeds_bind; [apply Rocket_init_succeeds | apply ensures_true |].
  intros child2 _.
  eapply succeeds_bind; [apply randint_succeeds; lia | apply ensures_true |].
  intros split _. apply succeeds_ret.
Qed.

(** With fewer than two rockets in the pool a round raises [IndexError]:
    [random.choice] gets an empty sequence, for the first parent when the
    pool is empty and for the second when it holds one rocket. *)
Lemma crossover_round_degenerate (rockets : list Rocket.t) (p : Process) :
  (length rockets <= 1)%nat ->
  fst (crossover_round rockets p) = Raise IndexError.
Proof.
  intros Hlen. unfold crossover_round. rewrite bind_M.
  destruct rockets as [| r [| r' t]]; simpl in Hlen; try lia.
  - reflexivity.
  - unfold random.choice at 1. rewrite bind_M. unfold random.raw at 1.
    rewrite ret_M, bind_M. simpl filter. rewrite Nat.eqb_refl. reflexivity.
Qed.

Lemma concat_pairs {A : Type} (ls : list (list A)) :
  Forall (fun l => length l = 2%nat) ls ->
  length (concat ls) = (2 * length ls)%nat.
Proof.
  induction 1 as [| l t Hl Ht IH]; simpl; [reflexivity |].
  rewrite length_app, IH, Hl. lia.
Qed.

Lemma crossover_spec (self : Simulation) (rockets : list Rocket.t) :
  ensures (_crossover self rockets)
    (fun pool =>
       length pool =
       (length rockets
        + 2 * Z.to_nat ((population self - Z.of_nat (length rockets)) ÷ 2))%nat
       /\ (Forall genome_ok rockets -> Forall genome_ok pool)).
Proof.
  unfold _crossover. rewrite crossover_rounds.
  eapply ensures_bind; [apply ensures_repeat_m, crossover_round_spec |].
  intros offspring [Hn Hall]. apply ensures_ret. split.
  - rewrite length_app, concat_pairs, Hn; [reflexivity |].
    eapply Forall_impl; [| exact Hall]. now intros l [Hl _].
  - intros Hok. apply Forall_app. split; [exact Hok |].
    apply Forall_concat. eapply Forall_impl; [| exact Hall].
    intros l [_ Hl]. now apply Hl.
Qed.

Lemma crossover_succeeds (self : Simulation) (rockets : list Rocket.t) :
  NoDup (map Rocket.id rockets) ->
  (2 <= length rockets)%nat
  \/ Z.to_nat ((population self - Z.of_nat (length rockets)) ÷ 2) = 0%nat ->
  succeeds (_crossover self rockets).
Proof.
  intros Hnd H. unfold _crossover. rewrite crossover_rounds.
  eapply succeeds_bind; [| apply ensures_true | intros; apply succeeds_ret].
  destruct H as [H | ->].
  - now apply succeeds_repeat_m, crossover_round_succeeds.
  - apply succeeds_ret.
Qed.

(** ** Mutation *)

Lemma mutate_gene_succeeds (g : Z) : succeeds (mutate_gene g).
Proof.
  unfold mutate_gene.
  eapply succeeds_bind; [apply uniform_succeeds | apply ensures_true |].
  intros u _. destruct (Qle_bool u float_0_1).
  - apply randint_succeeds. lia.
  - apply succeeds_ret.
Qed.

Lemma mutate_gene_spec (g : Z) :
  ensures (mutate_gene g) (fun g' => gene_ok g -> gene_ok g').
Proof.
  unfold mutate_gene.
  eapply ensures_bind; [apply ensures_true |]. intros u _.
  destruct (Qle_bool u float_0_1).
  - eapply ensures_weaken; [apply randint_range |]. now intros g' Hg' _.
  - now apply ensures_ret.
Qed.

Lemma mutation_succeeds (rockets : list Rocket.t) : succeeds (_mutation rockets).
Proof.
  unfold _mutation. apply succeeds_for_each. intros r _.
  eapply succeeds_bind; [| apply ensures_true | intros; apply succeeds_ret].
  apply succeeds_for_each. intros g _. apply mutate_gene_succeeds.
Qed.

(** Mutation keeps the rockets, their order and the length of every
    genome, and keeps every gene in range. *)
Lemma mutation_spec (rockets : list Rocket.t) :
  ensures (_mutation rockets)
    (fun pool =>
       length pool = length rockets
       /\ map Rocket.id pool = map Rocket.id rockets
       /\ (Forall genome_ok rockets -> Forall genome_ok pool)).
Proof.
  unfold _mutation.
  eapply ensures_weaken.
  - apply ensures_for_each
      with (Q := fun r r' => Rocket.id r' = Rocket.id r
                             /\ (genome_ok r -> genome_ok r')).
    intros r _.
    eapply ensures_bind;
      [apply ensures_for_each
         with (Q := fun g g' => gene_ok g -> gene_ok g');
       intros; apply mutate_gene_spec |].
    intros g Hg. apply ensures_ret. split; [reflexivity |].
    intros [Hlen Hall]. split; simpl.
    + now rewrite <- (Forall2_length Hg).
    + clear Hlen. induction Hg; inversion Hall; subst; constructor; auto.
  - intros pool H. split; [symmetry; eapply Forall2_length; eauto |].
    split.
    + induction H as [| r r' t t' [Hid _] _ IH]; simpl; congruence.
    + intros Hall. induction H as [| r r' t t' [_ Hr] _ IH];
        inversion Hall; subst; constructor; auto.
Qed.

(** ** A generation change *)

Lemma reset_rockets_spec (self : Simulation) (rs : list Rocket.t) :
  length (_reset_rockets self rs) = length rs
  /\ map Rocket.id (_reset_rockets self rs) = map Rocket.id rs
  /\ Forall (on_the_pad self) (_reset_rockets self rs)
  /\ (Forall genome_ok rs -> Forall genome_ok (_reset_rockets self rs)).
Proof.
  unfold _reset_rockets. repeat split.
  - apply length_map.
  - now rewrite map_map.
  - apply Forall_map, Forall_forall. intros r _. now repeat split.
  - intros H. apply Forall_map. eapply Forall_impl; [| exact H].
    now intros r [Hl Hg].
Qed.

Lemma selection_spec (rs : list Rocket.t) :
  ensures (_selection rs)
    (fun elite => elite = firstn (length rs / 5) (sorted fitter rs)).
Proof. intros p a p' E. rewrite selection_run in E. now inversion E. Qed.

Lemma selection_succeeds (rs : list Rocket.t) : succeeds (_selection rs).
Proof. intros p. rewrite selection_run. now eexists _, _. Qed.

Lemma elite_length (rs : list Rocket.t) :
  length (firstn (length rs / 5) (sorted fitter rs)) = (length rs / 5)%nat.
Proof.
  rewrite length_firstn, sorted_length.
  pose proof (Nat.Div0.div_le_upper_bound (length rs) 5 (length rs)). lia.
Qed.

Lemma elite_genome_ok (rs : list Rocket.t) :
  Forall genome_ok rs ->
  Forall genome_ok (firstn (length rs / 5) (sorted fitter rs)).
Proof.
  intros H.
  assert (Hs : Forall genome_ok (sorted fitter rs)).
  { rewrite Forall_forall in *. intros r Hr. apply H.
    eapply Permutation_in; [apply sorted_perm | exact Hr]. }
  rewrite <- (firstn_skipn (length rs / 5) (sorted fitter rs)) in Hs.
  now apply Forall_app in Hs.
Qed.

Lemma elite_NoDup (rs : list Rocket.t) :
  NoDup (map Rocket.id rs) ->
  NoDup (map Rocket.id (firstn (length rs / 5) (sorted fitter rs))).
Proof.
  intros H.
  assert (Hs : NoDup (map Rocket.id (sorted fitter rs))).
  { eapply Permutation_NoDup; [| exact H].
    apply Permutation_map, Permutation_sym, sorted_perm. }
  rewrite <- (firstn_skipn (length rs / 5) (sorted fitter rs)), map_app in Hs.
  now apply NoDup_app_remove_r in Hs.
Qed.

Lemma next_gen_spec (self : Simulation) :
  ensures (next_gen self)
    (fun self' =>
       length (rockets self') = pool_size self
       /\ index self' = 0%nat
       /\ generation self' = (generation self + 1)%nat
       /\ Forall (on_the_pad self') (rockets self')
       /\ (Forall genome_ok (rockets self) -> Forall genome_ok (rockets self'))
       /\ start self' = start self /\ goal self' = goal self
       /\ obstacles self' = obstacles self /\ win_size self' = win_size self
       /\ population self' = population self).
Proof.
  unfold next_gen.
  eapply ensures_bind; [apply selection_spec |]. intros elite ->.
  eapply ensures_bind; [apply crossover_spec |]. intros pool [Hlen Hok].
  eapply ensures_bind; [apply mutation_spec |]. intros pool' (Hlen' & _ & Hok').
  apply ensures_ret. simpl.
  destruct (reset_rockets_spec self pool') as (Hr1 & _ & Hr3 & Hr4).
  rewrite elite_length in Hlen.
  repeat split; auto.
  - unfold pool_size. congruence.
  - intros H. now apply Hr4, Hok', Hok, elite_genome_ok.
Qed.

Lemma next_gen_succeeds (self : Simulation) :
  NoDup (map Rocket.id (rockets self)) ->
  (2 <= length (rockets self) / 5)%nat
  \/ Z.to_nat ((population self
                - Z.of_nat (length (rockets self) / 5)) ÷ 2) = 0%nat ->
  succeeds (next_gen self).
Proof.
  intros Hnd H. unfold next_gen.
  eapply succeeds_bind; [apply selection_succeeds | apply selection_spec |].
  intros elite ->.
  eapply succeeds_bind; [| apply ensures_true |].
  { apply crossover_succeeds; [now apply elite_NoDup |].
    now rewrite elite_length. }
  intros pool _.
  eapply succeeds_bind; [apply mutation_succeeds | apply ensures_true |].
  intros pool' _. apply succeeds_ret.
Qed.

(** With a population of 2 to 9 the elite pool has fewer than two rockets
    and at least one round of crossover is due: [next_gen] raises. *)
Lemma next_gen_degenerate (self : Simulation) (p : Process) (N : nat) :
  length (rockets self) = N -> population self = Z.of_nat N ->
  (2 <= N <= 9)%nat ->
  fst (next_gen self p) = Raise IndexError.
Proof.
  intros Hlen Hpop HN. unfold next_gen.
  rewrite bind_M, selection_run, bind_M. unfold _crossover.
  rewrite crossover_rounds, elite_length, Hlen, Hpop.
  assert (HE : (N / 5 <= 1)%nat).
  { apply Nat.lt_succ_r, Nat.Div0.div_lt_upper_bound. lia. }
  rewrite rounds_nat by lia.
  assert (Hr : (1 <= (N - N / 5) / 2)%nat).
  { apply Nat.div_le_lower_bound; [lia |].
    destruct (Nat.lt_ge_cases N 5) as [Hs | Hs].
    - rewrite (Nat.div_small N 5) by exact Hs. lia.
    - lia. }
  destruct ((N - N / 5) / 2)%nat as [| k] eqn:Ek; [lia |].
  rewrite bind_M, repeat_m_S, bind_M.
  match goal with
  | |- context [crossover_round ?l ?q] =>
      pose proof (crossover_round_degenerate l q) as Hd;
      destruct (crossover_round l q) as [[a | e] q']
  end.
  - rewrite length_firstn in Hd. specialize (Hd ltac:(lia)). discriminate.
  - rewrite length_firstn in Hd. specialize (Hd ltac:(lia)). simpl in Hd.
    inversion Hd. reflexivity.
Qed.

(** C2 (as amended): for a population of N distinct agents with
    N >= 10 or N <= 1, breeding returns and its pool has exactly
    E + 2*floor((N-E)/2) agents, E = floor(0.2*N); so N = 100 gives 100 and
    N = 101 gives 100, one short of N, and nothing corrects the drift: the
    configured population is still N. *)
Theorem breeding_pool_size (self : Simulation) (p : Process) (N : nat) :
  length (rockets self) = N -> population self = Z.of_nat N ->
  NoDup (map Rocket.id (rockets self)) ->
  (N <= 1 \/ 10 <= N)%nat ->
  exists self' p',
    next_gen self p = (Ok self', p')
    /\ length (rockets self') = (N / 5 + 2 * ((N - N / 5) / 2))%nat
    /\ (N = 100%nat -> length (rockets self') = 100%nat)
    /\ (N = 101%nat -> length (rockets self') = 100%nat)
    /\ population self' = Z.of_nat N.
Proof.
  intros Hlen Hpop Hnd HN.
  assert (HE : (N / 5 <= N)%nat).
  { pose proof (Nat.Div0.div_le_upper_bound N 5 N). lia. }
  destruct (next_gen_succeeds self Hnd) with (p := p) as (self' & p' & E).
  { rewrite Hlen, Hpop, rounds_nat by exact HE.
    destruct HN as [HN | HN].
    - right. destruct N as [| [| n]]; [reflexivity | reflexivity | lia].
    - left. apply Nat.div_le_lower_bound; lia. }
  exists self', p'. split; [exact E |].
  destruct (next_gen_spec self _ _ _ E)
    as (Hsize & _ & _ & _ & _ & _ & _ & _ & _ & Hp).
  unfold pool_size in Hsize. rewrite Hlen, Hpop, rounds_nat in Hsize by exact HE.
  split; [exact Hsize |].
  split; [intros ->; exact Hsize |].
  split; [intros ->; exact Hsize | congruence].
Qed.

(** ** The loop of [main]: what it calls *)

Lemma selection_steady (rs : list Rocket.t) : steady (_selection rs).
Proof.
  intros p r p' E. rewrite selection_run in E. inversion E.
  split; [reflexivity | simpl; lia].
Qed.

Lemma crossover_steady (self : Simulation) (rs : list Rocket.t) :
  steady (_crossover self rs).
Proof.
  unfold _crossover.
  apply steady_bind; [| intros; apply steady_ret].
  apply steady_repeat_m. unfold crossover_round.
  apply steady_bind; [apply choice_steady |]. intros parent1.
  apply steady_bind; [apply choice_steady |]. intros parent2.
  apply steady_bind; [apply Rocket_init_steady |]. intros child1.
  apply steady_bind; [apply Rocket_init_steady |]. intros child2.
  apply steady_bind; [apply randint_steady |]. intros split.
  apply steady_ret.
Qed.

Lemma mutation_steady (rs : list Rocket.t) : steady (_mutation rs).
Proof.
  unfold _mutation. apply steady_for_each. intros r.
  apply steady_bind; [| intros; apply steady_ret].
  apply steady_for_each. intros g. unfold mutate_gene.
  apply steady_bind; [apply uniform_steady |]. intros u.
  destruct (Qle_bool u float_0_1);
    [apply randint_steady | apply steady_ret].
Qed.

Lemma next_gen_steady (self : Simulation) : steady (next_gen self).
Proof.
  unfold next_gen.
  apply steady_bind; [apply selection_steady |]. intros elite.
  apply steady_bind; [apply crossover_steady |]. intros pool.
  apply steady_bind; [apply mutation_steady |]. intros pool'.
  apply steady_ret.
Qed.

Lemma bind_M_ok {A B : Type} (c : M A) (k : A -> M B) (p p' : Process) (b : B) :
  bind c k p = (Ok b, p') ->
  exists a p1, c p = (Ok a, p1) /\ k a p1 = (Ok b, p').
Proof.
  rewrite bind_M. destruct (c p) as [[a | e] p1]; [| discriminate].
  intros E. now exists a, p1.
Qed.

Lemma draw_inv (sim sim' : Simulation) :
  draw sim = Ok sim' ->
  exists b, sim' = set_best_fitness sim (Z.max (best_fitness sim) b).
Proof.
  unfold draw. simpl. destruct (max_ _ (rockets sim)) as [best |];
    [| discriminate].
  intros E. inversion E. now eexists.
Qed.

Lemma tick_inv (sim sim' : Simulation) (p p' : Process) :
  tick sim p = (Ok sim', p') ->
  exists sim1,
    (if (alive_rockets sim =? 0)%nat
     then exists q q', next_gen sim q = (Ok sim1, q')
     else sim1 = sim)
    /\ (if found_solution sim1 then sim' = sim1
        else exists sim2, update sim1 = Ok sim2 /\ draw sim2 = Ok sim').
Proof.
  unfold tick. intros E. apply bind_M_ok in E.
  destruct E as (sim1 & p1 & E1 & E). exists sim1. split.
  - unfold breed_if_none_alive in E1.
    destruct (alive_rockets sim =? 0)%nat.
    + apply bind_M_ok in E1. destruct E1 as (u & q & _ & E1). now exists q, p1.
    + rewrite ret_M in E1. now inversion E1.
  - unfold step_unless_solved in E.
    destruct (found_solution sim1); cbn [negb] in E.
    + rewrite ret_M in E. now inversion E.
    + apply bind_M_ok in E. destruct E as (u & q & _ & E).
      apply bind_M_ok in E. destruct E as (sim2 & q2 & Eu & E).
      apply bind_M_ok in E. destruct E as (u' & q3 & _ & E).
      unfold lift in Eu, E. inversion Eu; subst. inversion E; subst.
      exists sim2. split; congruence.
Qed.

Lemma none_alive_count (rs : list Rocket.t) :
  length (filter Rocket.alive rs) = 0%nat
  <-> Forall (fun r => Rocket.alive r = false) rs.
Proof.
  induction rs as [| r t IH]; cbn [filter].
  - split; [constructor | reflexivity].
  - destruct (Rocket.alive r) eqn:Ea; cbn [length].
    + split; [discriminate |]. intros H. inversion H; congruence.
    + rewrite IH. split; [now constructor | intros H; now inversion H].
Qed.

Lemma some_alive_not_none (rs : list Rocket.t) :
  Exists (fun r => Rocket.alive r = true) rs ->
  ~ Forall (fun r => Rocket.alive r = false) rs.
Proof.
  intros He Hf. apply Exists_exists in He. destruct He as (r & Hin & Ha).
  rewrite Forall_forall in Hf. specialize (Hf r Hin). congruence.
Qed.

Lemma tick_generation (sim sim' : Simulation) (p p' : Process) :
  tick sim p = (Ok sim', p') ->
  generation sim'
  = (if (alive_rockets sim =? 0)%nat then generation sim + 1
     else generation sim)%nat.
Proof.
  intros E. apply tick_inv in E. destruct E as (sim1 & H1 & H2).
  assert (G1 : generation sim1
               = (if (alive_rockets sim =? 0)%nat then generation sim + 1
                  else generation sim)%nat).
  { destruct (alive_rockets sim =? 0)%nat.
    - destruct H1 as (q & q' & En).
      now destruct (next_gen_spec sim q sim1 q' En) as (_ & _ & Hg & _).
    - now subst. }
  rewrite <- G1. destruct (found_solution sim1).
  - now subst.
  - destruct H2 as (sim2 & Eu & Ed).
    apply update_steps in Eu. destruct Eu as (_ & _ & Hg & _).
    apply draw_inv in Ed. destruct Ed as [b ->]. exact Hg.
Qed.

Lemma breed_if_none_alive_calls (sim : Simulation) (p : Process) :
  calls (snd (breed_if_none_alive sim p)) =
  if (alive_rockets sim =? 0)%nat then CallNextGen :: calls p else calls p.
Proof.
  unfold breed_if_none_alive. destruct (alive_rockets sim =? 0)%nat; cbv iota.
  - rewrite bind_M. unfold tell.
    match goal with
    | |- context [next_gen sim ?q] =>
        destruct (next_gen sim q) as [r p'] eqn:E;
        apply next_gen_steady in E
    end.
    simpl in *. apply E.
  - reflexivity.
Qed.

Lemma step_unless_solved_calls (sim : Simulation) (p : Process) :
  exists log,
    calls (snd (step_unless_solved sim p)) = log ++ calls p
    /\ ~ In CallNextGen log.
Proof.
  unfold step_unless_solved.
  destruct (found_solution sim); cbv beta iota delta [negb].
  - exists []. split; [reflexivity | intros []].
  - rewrite bind_M. unfold tell at 1. rewrite bind_M. unfold lift at 1.
    destruct (update sim) as [sim1 | e].
    + rewrite bind_M. exists [CallDraw; CallUpdate]. split; [reflexivity |].
      simpl. intros [H | [H | []]]; discriminate.
    + exists [CallUpdate]. split; [reflexivity |].
      simpl. intros [H | []]; discriminate.
Qed.

(** What one iteration logs: [next_gen] exactly when no agent is alive. *)
Lemma tick_calls (sim : Simulation) (p : Process) :
  exists log,
    calls (snd (tick sim p)) = log ++ calls p
    /\ (In CallNextGen log <-> alive_rockets sim = 0%nat).
Proof.
  unfold tick. rewrite bind_M.
  pose proof (breed_if_none_alive_calls sim p) as Hb.
  destruct (breed_if_none_alive sim p) as [[sim1 | e] p1]; simpl in Hb.
  - destruct (step_unless_solved_calls sim1 p1) as (log & Hlog & Hnot).
    rewrite Hlog, Hb.
    destruct (Nat.eqb_spec (alive_rockets sim) 0) as [E | E].
    + exists (log ++ [CallNextGen]). rewrite <- app_assoc. split; [reflexivity |].
      split; [now intros _ |]. intros _. apply in_or_app. right. now left.
    + exists log. split; [reflexivity |]. split; [contradiction | congruence].
  - simpl. rewrite Hb.
    destruct (Nat.eqb_spec (alive_rockets sim) 0) as [E | E].
    + exists [CallNextGen]. split; [reflexivity |].
      split; [now intros _ | intros _; now left].
    + exists []. split; [reflexivity |]. split; [intros [] | congruence].
Qed.

(** C7: in an iteration of the loop, breeding is invoked if and only if
    the count of alive agents is 0, that is if and only if no agent of the
    population has its alive flag set, and never while an agent is alive;
    an iteration that returns has raised the generation counter exactly
    in that case.  Breeding, that is selection, crossover and mutation
    followed by the kinematic reset, leaves the tick index at 0, the
    generation counter one higher and every agent of the pool reset on
    the pad. *)
Theorem breeding_iff_none_alive (sim : Simulation) (p : Process) :
  (exists log,
      calls (snd (tick sim p)) = log ++ calls p
      /\ (In CallNextGen log <-> alive_rockets sim = 0%nat)
      /\ (In CallNextGen log
          <-> Forall (fun r => Rocket.alive r = false) (rockets sim))
      /\ (Exists (fun r => Rocket.alive r = true) (rockets sim) ->
          ~ In CallNextGen log))
  /\ (forall sim' p',
        tick sim p = (Ok sim', p') ->
        (generation sim' = (generation sim + 1)%nat
         <-> Forall (fun r => Rocket.alive r = false) (rockets sim))
        /\ (Exists (fun r => Rocket.alive r = true) (rockets sim) ->
            generation sim' = generation sim))
  /\ ensures (next_gen sim)
       (fun sim' =>
          index sim' = 0%nat
          /\ generation sim' = (generation sim + 1)%nat
          /\ Forall (on_the_pad sim') (rockets sim')).
Proof.
  pose proof (none_alive_count (rockets sim)) as Hn.
  fold (alive_rockets sim) in Hn.
  split; [| split].
  - destruct (tick_calls sim p) as (log & Hlog & Hiff).
    exists log. split; [exact Hlog |]. split; [exact Hiff |].
    split; [now rewrite Hiff |].
    intros He Hin. apply (some_alive_not_none _ He). now rewrite <- Hn, <- Hiff.
  - intros sim' p' E. apply tick_generation in E. rewrite <- Hn.
    destruct (Nat.eqb_spec (alive_rockets sim) 0) as [E0 | E0].
    + split; [now split |].
      intros He. exfalso. apply (some_alive_not_none _ He). now apply Hn.
    + split; [| intros _; exact E]. split; [lia | contradiction].
  - eapply ensures_weaken; [apply next_gen_spec |].
    intros sim' (_ & Hi & Hg & Hp & _). auto.
Qed.

Lemma tick_frozen (sim : Simulation) (p : Process) :
  found_solution sim = true -> alive_rockets sim <> 0%nat ->
  tick sim p = (Ok sim, p).
Proof.
  intros Hf Ha. unfold tick, breed_if_none_alive, step_unless_solved.
  destruct (Nat.eqb_spec (alive_rockets sim) 0) as [E | E]; [contradiction |].
  rewrite bind_M, ret_M, Hf. reflexivity.
Qed.

Lemma handle_quiet (cnf : Config.t) (sim : Simulation) (event : Event)
    (p : Process) :
  quiet event = true ->
  exists f, handle_event cnf (false, sim) event p
            = (Ok (false, set_fps sim f), p).
Proof.
  destruct sim as [w rs i o g b f pop st gl].
  destruct event as [| [| | | |] | button [x y] |]; simpl; try discriminate;
    intros H.
  - destruct (f <? 300)%Z; now eexists.
  - destruct (5 <? f)%Z; now eexists.
  - now eexists.
  - apply negb_true_iff in H. rewrite H. now eexists.
  - now eexists.
Qed.

Lemma handle_events_quiet (cnf : Config.t) (events : list Event)
    (sim : Simulation) (p : Process) :
  Forall (fun e => quiet e = true) events ->
  exists f, handle_events cnf events (false, sim) p
            = (Ok (false, set_fps sim f), p).
Proof.
  intros H. revert sim. induction H as [| e t He Ht IH]; intros sim.
  - exists (fps sim). now destruct sim.
  - cbn [handle_events]. rewrite bind_M.
    destruct (handle_quiet cnf sim e p He) as [f ->].
    destruct (IH (set_fps sim f)) as [f' ->]. now exists f'.
Qed.

(** C6 (as amended): while some agent is within distance 10 of the goal
    and at least one agent is alive, iterations of the loop whose events
    neither restart the simulation nor move the goal perform no tick
    advance and no breeding: the simulation and the generator stay as they
    are and nothing is called (only the frame rate may change).  When no
    agent is alive the iteration breeds, solved or not: the test of the
    alive count comes first. *)
Theorem solved_freeze (cnf : Config.t) (frames : list (list Event))
    (sim : Simulation) (p : Process) :
  found_solution sim = true ->
  Forall (Forall (fun e => quiet e = true)) frames ->
  (alive_rockets sim <> 0%nat ->
   tick sim p = (Ok sim, p)
   /\ exists f,
       run cnf frames (false, sim) p = (Ok (false, set_fps sim f), p))
  /\ (alive_rockets sim = 0%nat ->
      exists log,
        calls (snd (tick sim p)) = log ++ calls p /\ In CallNextGen log).
Proof.
  intros Hf Hq. split.
  - intros Ha. split; [now apply tick_frozen |].
    revert sim Hf Ha. induction Hq as [| events rest He Hr IH]; intros sim Hf Ha.
    + exists (fps sim). now destruct sim.
    + cbn [run fst]. unfold loop_body. rewrite !bind_M.
      destruct (handle_events_quiet cnf events sim p He) as [f ->].
      cbn [snd fst].
      rewrite bind_M, (tick_frozen (set_fps sim f) p Hf Ha), ret_M.
      destruct (IH (set_fps sim f) Hf Ha) as [f' ->]. now exists f'.
  - intros Ha. destruct (tick_calls sim p) as (log & Hlog & Hin).
    exists log. split; [exact Hlog | now apply Hin].
Qed.

(** ** The genome invariant along the run of [main] *)

Lemma ensures_lift {A : Type} (r : result A) (Q : A -> Prop) :
  (forall a, r = Ok a -> Q a) -> ensures (lift r) Q.
Proof. intros H p a p' E. inversion E. auto. Qed.

Lemma restart_spec (cnf : Config.t) (self : Simulation) :
  ensures (restart cnf self)
    (fun self' =>
       Forall genome_ok (rockets self')
       /\ length (rockets self') = Z.to_nat (Config.population cnf)
       /\ population self' = Config.population cnf
       /\ index self' = 0%nat /\ generation self' = 1%nat
       /\ Forall (on_the_pad self') (rockets self')).
Proof.
  unfold restart.
  eapply ensures_bind; [apply ensures_repeat_m, Rocket_init_spec |].
  intros rs [Hlen Hall]. apply ensures_ret.
  match goal with
  | |- context [_reset_rockets ?s rs] =>
      destruct (reset_rockets_spec s rs) as (Hl & _ & Hpad & Hok)
  end.
  simpl. repeat split; auto; try congruence.
  apply Hok. eapply Forall_impl; [| exact Hall]. now intros r [H _].
Qed.

Lemma restart_succeeds (cnf : Config.t) (self : Simulation) :
  succeeds (restart cnf self).
Proof.
  unfold restart.
  eapply succeeds_bind;
    [apply succeeds_repeat_m, Rocket_init_succeeds | apply ensures_true |].
  intros rs _. apply succeeds_ret.
Qed.

Lemma rocket_step_genome (self : Simulation) (r r' : Rocket.t) :
  rocket_step self r r' ->
  Rocket.genome r' = Rocket.genome r /\ Rocket.id r' = Rocket.id r.
Proof.
  intros (m & q & Hm & _ & ->).
  destruct (check_rocket_spec self m) as (Hg & _ & Hi & _).
  simpl in *. rewrite Hg, Hi.
  destruct (Rocket.alive r) eqn:Ha.
  - destruct (update_rocket_alive _ _ _ Ha Hm) as (d & _ & ->). now split.
  - rewrite (update_rocket_dead _ _ Ha) in Hm. inversion Hm. now split.
Qed.

Lemma update_genome_ok (self self' : Simulation) :
  update self = Ok self' ->
  Forall genome_ok (rockets self) -> Forall genome_ok (rockets self').
Proof.
  intros E. apply update_steps in E. destruct E as (Hs & _).
  induction Hs as [| r r' t t' Hr Ht IH]; intros H; [constructor |].
  inversion H as [| ? ? [Hlen Hall] Hrest]; subst.
  constructor; [| now apply IH].
  destruct (rocket_step_genome _ _ _ Hr) as [Hg _].
  unfold genome_ok. now rewrite Hg.
Qed.

Lemma draw_rockets (sim sim' : Simulation) :
  draw sim = Ok sim' -> rockets sim' = rockets sim.
Proof.
  unfold draw. simpl. destruct (max_ _ (rockets sim)); [| discriminate].
  intros E. now inversion E.
Qed.

Lemma tick_genome_ok (sim : Simulation) :
  Forall genome_ok (rockets sim) ->
  ensures (tick sim) (fun sim' => Forall genome_ok (rockets sim')).
Proof.
  intros H. unfold tick.
  eapply ensures_bind with (P := fun s => Forall genome_ok (rockets s)).
  - unfold breed_if_none_alive. destruct (alive_rockets sim =? 0)%nat.
    + eapply ensures_bind; [apply ensures_true |]. intros _ _.
      eapply ensures_weaken; [apply next_gen_spec |].
      intros s (_ & _ & _ & _ & Hok & _). now apply Hok.
    + now apply ensures_ret.
  - intros sim1 H1. unfold step_unless_solved.
    destruct (negb (found_solution sim1)); [| now apply ensures_ret].
    eapply ensures_bind; [apply ensures_true |]. intros _ _.
    eapply ensures_bind with (P := fun s => Forall genome_ok (rockets s)).
    + apply ensures_lift. intros sim2 E. now apply (update_genome_ok _ _ E).
    + intros sim2 H2.
      eapply ensures_bind; [apply ensures_true |]. intros _ _.
      apply ensures_lift. intros sim3 E. now rewrite (draw_rockets _ _ E).
Qed.

Lemma handle_event_genome_ok (cnf : Config.t) (st : bool * Simulation)
    (event : Event) :
  Forall genome_ok (rockets (snd st)) ->
  ensures (handle_event cnf st event)
          (fun st' => Forall genome_ok (rockets (snd st'))).
Proof.
  destruct st as [done sim]. simpl snd. intros H. unfold handle_event.
  destruct event as [| [| | | |] | button [x y] |];
    try (now apply ensures_ret).
  - destruct (fps sim <? 300)%Z; now apply ensures_ret.
  - destruct (5 <? fps sim)%Z; now apply ensures_ret.
  - eapply ensures_bind; [apply ensures_true |]. intros _ _.
    eapply ensures_bind; [apply restart_spec |]. intros sim' (Hok & _).
    now apply ensures_ret.
  - destruct (button =? 3)%Z; now apply ensures_ret.
Qed.

Lemma handle_events_genome_ok (cnf : Config.t) (events : list Event)
    (st : bool * Simulation) :
  Forall genome_ok (rockets (snd st)) ->
  ensures (handle_events cnf events st)
          (fun st' => Forall genome_ok (rockets (snd st'))).
Proof.
  revert st. induction events as [| e t IH]; intros st H; cbn [handle_events].
  - now apply ensures_ret.
  - eapply ensures_bind; [now apply handle_event_genome_ok |].
    intros st' H'. now apply IH.
Qed.

Lemma run_genome_ok (cnf : Config.t) (frames : list (list Event))
    (st : bool * Simulation) :
  Forall genome_ok (rockets (snd st)) ->
  ensures (run cnf frames st)
          (fun st' => Forall genome_ok (rockets (snd st'))).
Proof.
  revert st. induction frames as [| events rest IH]; intros st H; cbn [run].
  - now apply ensures_ret.
  - destruct (fst st); [now apply ensures_ret |].
    eapply ensures_bind with
      (P := fun st' => Forall genome_ok (rockets (snd st'))); [| exact IH].
    unfold loop_body.
    eapply ensures_bind; [now apply handle_events_genome_ok |].
    intros st1 H1.
    eapply ensures_bind; [now apply tick_genome_ok |].
    intros sim2 H2. now apply ensures_ret.
Qed.

(** C5: every genome has length exactly 300 and every gene lies in
    [-7, 7]: for a rocket just made, for the pool after crossover and for
    the pool after mutation when it held for the pool before, and hence
    for every agent of every state that the loop of [main] reaches,
    generation after generation. *)
Theorem genome_invariant :
  ensures Rocket.__init__ genome_ok
  /\ (forall self rs,
        Forall genome_ok rs ->
        ensures (_crossover self rs) (Forall genome_ok))
  /\ (forall rs,
        Forall genome_ok rs -> ensures (_mutation rs) (Forall genome_ok))
  /\ (forall cnf frames,
        ensures (main cnf frames)
                (fun st => Forall genome_ok (rockets (snd st)))).
Proof.
  repeat split.
  - eapply Rocket_init_spec; eauto.
  - eapply Rocket_init_spec; eauto.
  - intros self rs H. eapply ensures_weaken; [apply crossover_spec |].
    intros pool [_ Hok]. now apply Hok.
  - intros rs H. eapply ensures_weaken; [apply mutation_spec |].
    intros pool (_ & _ & Hok). now apply Hok.
  - intros cnf frames. unfold main.
    eapply ensures_bind; [apply restart_spec |]. intros sim (Hok & _).
    now apply run_genome_ok.
Qed.

(** ** Distinct agents along the run of [main] *)

Lemma hoare_ret {A : Type} (a : A) (Pre : Process -> Prop)
    (Post : A -> Process -> Prop) :
  (forall p, Pre p -> Post a p) -> hoare Pre (ret a) Post.
Proof. intros H p a' p' Hp E. rewrite ret_M in E. inversion E; subst. auto. Qed.

Lemma hoare_bind {A B : Type} (c : M A) (k : A -> M B) (Pre : Process -> Prop)
    (Mid : A -> Process -> Prop) (Post : B -> Process -> Prop) :
  hoare Pre c Mid -> (forall a, hoare (Mid a) (k a) Post) ->
  hoare Pre (bind c k) Post.
Proof.
  intros Hc Hk p b p' Hp E. apply bind_M_ok in E.
  destruct E as (a & p1 & Ec & Ek). eapply Hk; eauto.
Qed.

Lemma hoare_lift {A : Type} (r : result A) (Pre : Process -> Prop)
    (Post : A -> Process -> Prop) :
  (forall a p, r = Ok a -> Pre p -> Post a p) -> hoare Pre (lift r) Post.
Proof. intros H p a p' Hp E. inversion E; subst. auto. Qed.

Lemma hoare_tell (c : Call) (rs : list Rocket.t) :
  hoare (fresh rs) (tell c) (fun _ => fresh rs).
Proof. intros p a p' Hp E. inversion E; subst. exact Hp. Qed.

Lemma fresh_later (rs : list Rocket.t) (p p' : Process) :
  fresh rs p -> (_id p <= _id p')%nat -> fresh rs p'.
Proof.
  intros [Hn Hf] Hle. split; [exact Hn |].
  eapply Forall_impl; [| exact Hf]. simpl. intros i Hi. lia.
Qed.

Lemma fresh_same_ids (rs rs' : list Rocket.t) (p : Process) :
  map Rocket.id rs' = map Rocket.id rs -> fresh rs p -> fresh rs' p.
Proof. unfold fresh. now intros ->. Qed.

Lemma init_id (p p' : Process) (r : Rocket.t) :
  Rocket.__init__ p = (Ok r, p') ->
  (_id p <= Rocket.id r)%nat /\ _id p' = S (Rocket.id r).
Proof.
  unfold Rocket.__init__. intros E. apply bind_M_ok in E.
  destruct E as (g & p1 & Eg & E).
  apply (steady_repeat_m _ _ (randint_steady _ _)) in Eg. destruct Eg as [_ Hle].
  rewrite bind_M in E. unfold Rocket.next_id at 1 in E. rewrite ret_M in E.
  inversion E; subst. simpl. split; [exact Hle | reflexivity].
Qed.

Lemma makes_init : makes (fun r => [r]) Rocket.__init__.
Proof.
  intros p r p' E. apply init_id in E. destruct E as [Hle Hs]. simpl.
  repeat split; try lia.
  - repeat constructor. intros [].
  - repeat constructor; lia.
Qed.

Lemma makes_repeat_m {A : Type} (f : A -> list Rocket.t) (c : M A) (n : nat) :
  makes f c -> makes (fun l => concat (map f l)) (repeat_m n c).
Proof.
  intros Hc. induction n as [| n IH]; intros p l p' E.
  - simpl in E. inversion E; subst. simpl.
    repeat split; try lia; constructor.
  - rewrite repeat_m_S in E. apply bind_M_ok in E.
    destruct E as (a & p1 & Ea & E). apply bind_M_ok in E.
    destruct E as (t & p2 & Et & E). rewrite ret_M in E. inversion E; subst.
    destruct (Hc _ _ _ Ea) as (L1 & N1 & F1).
    destruct (IH _ _ _ Et) as (L2 & N2 & F2).
    simpl. rewrite map_app. repeat split; [lia | |].
    + apply NoDup_app; auto. intros i H1 H2.
      rewrite Forall_forall in F1, F2.
      specialize (F1 _ H1). specialize (F2 _ H2). lia.
    + apply Forall_app. split.
      * eapply Forall_impl; [| exact F1]. simpl. intros i Hi. lia.
      * eapply Forall_impl; [| exact F2]. simpl. intros i Hi. lia.
Qed.

Lemma makes_crossover_round (rs : list Rocket.t) :
  makes (fun l => l) (crossover_round rs).
Proof.
  intros p l p' E. unfold crossover_round in E.
  apply bind_M_ok in E. destruct E as (parent1 & p1 & E1 & E).
  apply bind_M_ok in E. destruct E as (parent2 & p2 & E2 & E).
  apply bind_M_ok in E. destruct E as (child1 & p3 & E3 & E).
  apply bind_M_ok in E. destruct E as (child2 & p4 & E4 & E).
  apply bind_M_ok in E. destruct E as (split & p5 & E5 & E).
  rewrite ret_M in E. inversion E; subst.
  apply choice_steady in E1. apply choice_steady in E2.
  apply init_id in E3. apply init_id in E4. apply randint_steady in E5.
  simpl. repeat split; try lia.
  - repeat constructor; simpl; intuition lia.
  - repeat constructor; lia.
Qed.

Lemma concat_singletons {A : Type} (l : list A) :
  concat (map (fun a => [a]) l) = l.
Proof. induction l as [| a t IH]; simpl; congruence. Qed.

Lemma fresh_elite (rs : list Rocket.t) (p : Process) :
  fresh rs p -> fresh (firstn (length rs / 5) (sorted fitter rs)) p.
Proof.
  intros [Hn Hf]. split; [now apply elite_NoDup |].
  assert (Hs : Forall (fun i => (i < _id p)%nat)
                      (map Rocket.id (sorted fitter rs))).
  { eapply Permutation_Forall; [| exact Hf].
    apply Permutation_map, Permutation_sym, sorted_perm. }
  rewrite <- (firstn_skipn (length rs / 5) (sorted fitter rs)), map_app in Hs.
  now apply Forall_app in Hs.
Qed.

Lemma next_gen_fresh (self : Simulation) :
  hoare (fresh (rockets self)) (next_gen self)
        (fun self' => fresh (rockets self')).
Proof.
  intros p self' p' Hp E. unfold next_gen in E.
  apply bind_M_ok in E. destruct E as (elite & p1 & E1 & E).
  apply bind_M_ok in E. destruct E as (pool & p2 & E2 & E).
  apply bind_M_ok in E. destruct E as (pool' & p3 & E3 & E).
  rewrite ret_M in E. inversion E; subst. simpl rockets.
  pose proof (selection_spec _ _ _ _ E1) as He. cbv beta in He. subst elite.
  apply selection_steady in E1. destruct E1 as [_ L1].
  destruct (mutation_spec _ _ _ _ E3) as (_ & Hids & _).
  apply mutation_steady in E3. destruct E3 as [_ L3].
  destruct (reset_rockets_spec self pool') as (_ & Hreset & _).
  apply (fresh_same_ids pool); [congruence |].
  apply (fresh_later _ p2); [| exact L3].
  unfold _crossover in E2. apply bind_M_ok in E2.
  destruct E2 as (offspring & q & Eo & E2). rewrite ret_M in E2.
  inversion E2; subst.
  destruct (makes_repeat_m _ _ _ (makes_crossover_round _) _ _ _ Eo)
    as (Lo & No & Fo).
  rewrite map_id in No, Fo.
  destruct (fresh_later _ _ p1 (fresh_elite _ _ Hp) L1) as [Ne Fe].
  split; rewrite map_app.
  - apply NoDup_app; auto. intros i H1 H2.
    rewrite Forall_forall in Fe, Fo.
    specialize (Fe _ H1). specialize (Fo _ H2). lia.
  - apply Forall_app. split.
    + eapply Forall_impl; [| exact Fe]. simpl. intros i Hi. lia.
    + eapply Forall_impl; [| exact Fo]. simpl. intros i Hi. lia.
Qed.

Lemma restart_fresh (cnf : Config.t) (self : Simulation) :
  hoare (fun _ => True) (restart cnf self) (fun self' => fresh (rockets self')).
Proof.
  intros p self' p' _ E. unfold restart in E.
  apply bind_M_ok in E. destruct E as (rs & p1 & Er & E).
  rewrite ret_M in E. inversion E; subst. simpl rockets.
  match goal with
  | |- fresh (_reset_rockets ?s rs) _ =>
      destruct (reset_rockets_spec s rs) as (_ & Hreset & _)
  end.
  apply (fresh_same_ids rs); [exact Hreset |].
  destruct (makes_repeat_m _ _ _ makes_init _ _ _ Er) as (L & N & F).
  rewrite concat_singletons in N, F. split; [exact N |].
  eapply Forall_impl; [| exact F]. simpl. intros i Hi. lia.
Qed.

Lemma update_ids (self self' : Simulation) :
  update self = Ok self' ->
  map Rocket.id (rockets self') = map Rocket.id (rockets self).
Proof.
  intros E. apply update_steps in E. destruct E as (Hs & _).
  induction Hs as [| r r' t t' Hr Ht IH]; simpl; [reflexivity |].
  destruct (rocket_step_genome _ _ _ Hr) as [_ ->]. now rewrite IH.
Qed.

Lemma tick_fresh (sim : Simulation) :
  hoare (fresh (rockets sim)) (tick sim) (fun sim' => fresh (rockets sim')).
Proof.
  unfold tick.
  eapply hoare_bind with (Mid := fun s => fresh (rockets s)).
  - unfold breed_if_none_alive. destruct (alive_rockets sim =? 0)%nat.
    + eapply hoare_bind; [apply hoare_tell |]. intros ?; cbv beta. apply next_gen_fresh.
    + apply hoare_ret. auto.
  - intros sim1. unfold step_unless_solved.
    destruct (negb (found_solution sim1)); [| apply hoare_ret; auto].
    eapply hoare_bind; [apply hoare_tell |]. intros ?; cbv beta.
    eapply hoare_bind with (Mid := fun s => fresh (rockets s)).
    + apply hoare_lift. intros sim2 p E H.
      apply (fresh_same_ids (rockets sim1)); [now apply update_ids | exact H].
    + intros sim2.
      eapply hoare_bind; [apply hoare_tell |]. intros ?; cbv beta.
      apply hoare_lift. intros sim3 p E H. now rewrite (draw_rockets _ _ E).
Qed.

Lemma handle_event_fresh (cnf : Config.t) (st : bool * Simulation)
    (event : Event) :
  hoare (fresh (rockets (snd st))) (handle_event cnf st event)
        (fun st' => fresh (rockets (snd st'))).
Proof.
  destruct st as [done sim]. simpl snd. unfold handle_event.
  destruct event as [| [| | | |] | button [x y] |];
    try (apply hoare_ret; auto; fail).
  - destruct (fps sim <? 300)%Z; apply hoare_ret; auto.
  - destruct (5 <? fps sim)%Z; apply hoare_ret; auto.
  - eapply hoare_bind; [apply hoare_tell |]. intros ?; cbv beta.
    eapply hoare_bind with (Mid := fun s => fresh (rockets s)).
    + intros p s p' _ E. now apply (restart_fresh cnf sim p s p' I).
    + intros s. apply hoare_ret. auto.
  - destruct (button =? 3)%Z; apply hoare_ret; auto.
Qed.

Lemma handle_events_fresh (cnf : Config.t) (events : list Event)
    (st : bool * Simulation) :
  hoare (fresh (rockets (snd st))) (handle_events cnf events st)
        (fun st' => fresh (rockets (snd st'))).
Proof.
  revert st. induction events as [| e t IH]; intros st; cbn [handle_events].
  - apply hoare_ret. auto.
  - eapply hoare_bind; [apply handle_event_fresh | exact IH].
Qed.

Lemma run_fresh (cnf : Config.t) (frames : list (list Event))
    (st : bool * Simulation) :
  hoare (fresh (rockets (snd st))) (run cnf frames st)
        (fun st' => fresh (rockets (snd st'))).
Proof.
  revert st. induction frames as [| events rest IH]; intros st; cbn [run].
  - apply hoare_ret. auto.
  - destruct (fst st); [apply hoare_ret; auto |].
    eapply hoare_bind with (Mid := fun st' => fresh (rockets (snd st')));
      [| exact IH].
    unfold loop_body.
    eapply hoare_bind; [apply handle_events_fresh |]. intros st1.
    eapply hoare_bind; [apply tick_fresh |]. intros sim2.
    apply hoare_ret. auto.
Qed.

(** In every state that the loop of [main] reaches the agents are distinct
    objects: no two of them share an id. *)
Lemma agents_are_distinct (cnf : Config.t) (frames : list (list Event))
    (p p' : Process) (st : bool * Simulation) :
  main cnf frames p = (Ok st, p') ->
  NoDup (map Rocket.id (rockets (snd st))).
Proof.
  intros E. unfold main in E. apply bind_M_ok in E.
  destruct E as (sim & p1 & Es & E).
  unfold Simulation__init__ in Es.
  pose proof (restart_fresh _ _ _ _ _ I Es) as H.
  apply (run_fresh cnf frames (false, sim) p1 st p' H E).
Qed.

(** ** An iteration that breeds *)

Lemma far_from_goal (sim : Simulation) :
  Forall (fun r => 10 <= _distance (Rocket.pos r) (goal sim)) (rockets sim) ->
  found_solution sim = false.
Proof.
  unfold found_solution. induction 1 as [| r t Hr Ht IH]; simpl; [reflexivity |].
  rewrite IH, orb_false_r. now apply Rltb_ge.
Qed.

Lemma draw_total (sim : Simulation) :
  rockets sim <> [] -> exists sim', draw sim = Ok sim'.
Proof.
  intros H. unfold draw. destruct (rockets sim) as [| r t] eqn:E; [congruence |].
  simpl. now eexists.
Qed.

Lemma tick_breeds (sim sim1 sim2 sim3 : Simulation) (p p1 : Process) :
  alive_rockets sim = 0%nat ->
  next_gen sim (mkProcess (entropy p) (drawn p) (_id p) (CallNextGen :: calls p))
  = (Ok sim1, p1) ->
  found_solution sim1 = false ->
  update sim1 = Ok sim2 ->
  draw sim2 = Ok sim3 ->
  tick sim p =
  (Ok sim3,
   mkProcess (entropy p1) (drawn p1) (_id p1)
             (CallDraw :: CallUpdate :: calls p1)).
Proof.
  intros Ha En Hf Eu Ed. unfold tick, breed_if_none_alive, step_unless_solved.
  rewrite Ha. cbn [Nat.eqb]. rewrite bind_M, bind_M. unfold tell at 1.
  rewrite En, Hf. cbn [negb]. rewrite bind_M. unfold tell at 1.
  rewrite bind_M. unfold lift at 1. rewrite Eu, bind_M. unfold tell, lift.
  now rewrite Ed.
Qed.

Lemma updates_total (n : nat) (self : Simulation) :
  start self <> goal self ->
  Forall (fun r => Rocket.genome r <> []) (rockets self) ->
  exists self', updates n self = Ok self'.
Proof.
  revert self. induction n as [| n IH]; intros self Hne Hg; simpl.
  - now exists self.
  - destruct (update_total self Hne Hg) as [mid E]. rewrite E.
    destruct (update_steps _ _ E) as (Hs & _ & _ & Hst & Hgl & _).
    apply IH; [congruence |].
    clear E IH. induction Hs as [| r r' t t' Hr Ht IHt]; [constructor |].
    inversion Hg; subst. constructor; [| now apply IHt].
    destruct (rocket_step_genome _ _ _ Hr) as [-> _]. assumption.
Qed.

(** * Further properties of the engine *)

(** ** [restart] *)

Lemma all_alive_count (rs : list Rocket.t) :
  Forall (fun r => Rocket.alive r = true) rs ->
  length (filter Rocket.alive rs) = length rs.
Proof.
  induction 1 as [| r t Hr Ht IH]; simpl; [reflexivity |].
  rewrite Hr. simpl. now rewrite IH.
Qed.

(** X1: [restart] always returns.  The new simulation holds as many
    rockets as the configuration asks for (none for a negative number),
    each with a genome of 300 genes in [-7, 7], fitness -1, alive, on the
    pad and heading 270; tick index 0, generation 1, best fitness 0, 30
    frames per second, and the world of the configuration in the window
    it had. *)
Theorem restart_starts_afresh (cnf : Config.t) (self : Simulation)
    (p : Process) :
  exists self' p',
    restart cnf self p = (Ok self', p')
    /\ length (rockets self') = Z.to_nat (Config.population cnf)
    /\ Forall (fun r => genome_ok r /\ Rocket.fitness r = -1
                        /\ on_the_pad self' r)
              (rockets self')
    /\ alive_rockets self' = length (rockets self')
    /\ index self' = 0%nat /\ generation self' = 1%nat
    /\ best_fitness self' = 0%Z /\ fps self' = 30%Z
    /\ population self' = Config.population cnf
    /\ obstacles self' = Config.obstacles cnf
    /\ start self' = Point.mk (IZR (fst (Config.start_pos cnf)))
                              (IZR (snd (Config.start_pos cnf)))
    /\ goal self' = Point.mk (IZR (fst (Config.goal cnf)))
                             (IZR (snd (Config.goal cnf)))
    /\ win_size self' = win_size self.
Proof.
  destruct (restart_succeeds cnf self p) as (self' & p' & E).
  exists self', p'. split; [exact E |].
  unfold restart in E. apply bind_M_ok in E.
  destruct E as (rs & p1 & Er & E). rewrite ret_M in E.
  inversion E; subst; clear E.
  destruct (ensures_repeat_m _ _ _ Rocket_init_spec _ _ _ Er) as [Hlen Hall].
  simpl. unfold _reset_rockets, alive_rockets. simpl.
  assert (Hpad : Forall (fun r => genome_ok r /\ Rocket.fitness r = -1
                           /\ Rocket.pos r =
                              Point.mk (IZR (fst (Config.start_pos cnf)))
                                       (IZR (snd (Config.start_pos cnf)) + 3 - 50)
                           /\ Rocket.angle r = 270%Z /\ Rocket.alive r = true)
            (map (fun rocket =>
                    Rocket.set_alive
                      (Rocket.set_angle
                         (Rocket.set_pos rocket
                            (Point.mk (IZR (fst (Config.start_pos cnf)))
                               (IZR (snd (Config.start_pos cnf)) + 3 - 50)))
                         270) true) rs)).
  { apply Forall_map. eapply Forall_impl; [| exact Hall].
    intros r ([Hl Hg] & Hf & _). simpl. repeat split; auto. }
  split; [now rewrite length_map |].
  split.
  { eapply Forall_impl; [| exact Hpad].
    intros r (Hg & Hf & Hp & Ha & Hl). unfold on_the_pad. simpl. auto. }
  split.
  { apply all_alive_count. eapply Forall_impl; [| exact Hpad].
    now intros r (_ & _ & _ & _ & Hl). }
  repeat split; reflexivity.
Qed.

(** ** Crossover and mutation, more closely *)

(** X2: [_crossover] needs two parents.  With at most one rocket in the
    pool and at least one round due it raises [IndexError]; with no round
    due it returns the pool as it is and draws nothing. *)
Theorem crossover_needs_two_parents (self : Simulation)
    (rockets : list Rocket.t) (p : Process) :
  ((length rockets <= 1)%nat ->
   (1 <= Z.to_nat ((population self - Z.of_nat (length rockets)) ÷ 2))%nat ->
   fst (_crossover self rockets p) = Raise IndexError)
  /\ (Z.to_nat ((population self - Z.of_nat (length rockets)) ÷ 2) = 0%nat ->
      _crossover self rockets p = (Ok rockets, p)).
Proof.
  unfold _crossover. rewrite crossover_rounds. split.
  - intros Hlen Hr.
    destruct (Z.to_nat ((population self - Z.of_nat (length rockets)) ÷ 2))
      as [| k]; [lia |].
    rewrite bind_M, repeat_m_S, bind_M.
    pose proof (crossover_round_degenerate rockets p Hlen) as Hd.
    destruct (crossover_round rockets p) as [[a | e] q]; simpl in Hd;
      [discriminate | now inversion Hd].
  - intros ->. rewrite bind_M. simpl. now rewrite app_nil_r.
Qed.

Lemma crossover_round_inv (rockets l : list Rocket.t) (p p' : Process) :
  crossover_round rockets p = (Ok l, p') ->
  exists parent1 parent2 child1 child2 split,
    In parent1 rockets /\ In parent2 rockets
    /\ Rocket.id parent2 <> Rocket.id parent1
    /\ (split <= length (Rocket.genome parent1))%nat
    /\ Rocket.fitness child1 = -1 /\ Rocket.fitness child2 = -1
    /\ l = [Rocket.set_genome child1
              (firstn split (Rocket.genome parent1)
               ++ skipn split (Rocket.genome parent2));
            Rocket.set_genome child2
              (firstn split (Rocket.genome parent2)
               ++ skipn split (Rocket.genome parent1))].
Proof.
  intros E. unfold crossover_round in E.
  apply bind_M_ok in E. destruct E as (parent1 & p1 & E1 & E).
  apply bind_M_ok in E. destruct E as (parent2 & p2 & E2 & E).
  apply bind_M_ok in E. destruct E as (child1 & p3 & E3 & E).
  apply bind_M_ok in E. destruct E as (child2 & p4 & E4 & E).
  apply bind_M_ok in E. destruct E as (split & p5 & E5 & E).
  rewrite ret_M in E. inversion E; subst; clear E.
  apply choice_In in E1. apply choice_In in E2.
  apply filter_In in E2. destruct E2 as [E2 Hne].
  apply negb_true_iff, Nat.eqb_neq in Hne.
  apply Rocket_init_spec in E3. apply Rocket_init_spec in E4.
  apply randint_range in E5.
  exists parent1, parent2, child1, child2, (Z.to_nat split).
  repeat split; auto; try tauto. lia.
Qed.

(** X3: a round of crossover cuts the genomes of two different rockets of
    the pool at one point: when all genomes of the pool have the same
    length, both children have that length, before the cut child 1 holds
    the genes of parent 1 and child 2 those of parent 2, position by
    position, and from the cut on it is the other way round; both children
    are unevaluated (fitness -1). *)
Theorem crossover_children_inherit (rockets l : list Rocket.t) (n : nat)
    (p p' : Process) :
  crossover_round rockets p = (Ok l, p') ->
  Forall (fun r => length (Rocket.genome r) = n) rockets ->
  exists parent1 parent2 child1 child2 split,
    l = [child1; child2]
    /\ In parent1 rockets /\ In parent2 rockets
    /\ Rocket.id parent1 <> Rocket.id parent2
    /\ (split <= n)%nat
    /\ length (Rocket.genome child1) = n /\ length (Rocket.genome child2) = n
    /\ Rocket.fitness child1 = -1 /\ Rocket.fitness child2 = -1
    /\ forall i,
        ((i < split)%nat ->
         nth_error (Rocket.genome child1) i = nth_error (Rocket.genome parent1) i
         /\ nth_error (Rocket.genome child2) i
            = nth_error (Rocket.genome parent2) i)
        /\ ((split <= i)%nat ->
            nth_error (Rocket.genome child1) i
            = nth_error (Rocket.genome parent2) i
            /\ nth_error (Rocket.genome child2) i
               = nth_error (Rocket.genome parent1) i).
Proof.
  intros E Hn. apply crossover_round_inv in E.
  destruct E as (parent1 & parent2 & c1 & c2 & split & H1 & H2 & Hne & Hs
                 & F1 & F2 & ->).
  rewrite Forall_forall in Hn.
  pose proof (Hn _ H1) as L1. pose proof (Hn _ H2) as L2. rewrite L1 in Hs.
  eexists parent1, parent2, _, _, split.
  split; [reflexivity |]. simpl.
  assert (Hcut : forall (g g' : list Z),
             length g = n -> length g' = n ->
             length (firstn split g ++ skipn split g') = n
             /\ forall i,
                 ((i < split)%nat ->
                  nth_error (firstn split g ++ skipn split g') i = nth_error g i)
                 /\ ((split <= i)%nat ->
                     nth_error (firstn split g ++ skipn split g') i
                     = nth_error g' i)).
  { intros g g' Lg Lg'. split.
    - rewrite length_app, length_firstn, length_skipn. lia.
    - intros i. split; intros Hi.
      + rewrite nth_error_app1 by (rewrite length_firstn; lia).
        rewrite nth_error_firstn.
        destruct (Nat.ltb_spec i split); [reflexivity | lia].
      + rewrite nth_error_app2 by (rewrite length_firstn; lia).
        rewrite nth_error_skipn, length_firstn. f_equal. lia. }
  destruct (Hcut _ _ L1 L2) as [La Ha]. destruct (Hcut _ _ L2 L1) as [Lb Hb].
  repeat split; auto.
  - apply Ha. assumption.
  - apply Hb. assumption.
  - apply Ha. assumption.
  - apply Hb. assumption.
Qed.

Lemma crossover_prefix (self : Simulation) (rs : list Rocket.t) :
  ensures (_crossover self rs) (fun pool => exists offspring, pool = rs ++ offspring).
Proof.
  unfold _crossover.
  eapply ensures_bind; [apply ensures_true |]. intros offspring _.
  apply ensures_ret. now exists (concat offspring).
Qed.

(** X4: the elite is carried over.  After a generation change the first
    E = floor(|population| / 5) agents of the new population are the E
    fittest agents of the old one (the same objects, told by their ids),
    in the order of the stable descending sort. *)
Theorem elite_is_carried_over (self self' : Simulation) (p p' : Process) :
  next_gen self p = (Ok self', p') ->
  firstn (length (rockets self) / 5) (map Rocket.id (rockets self'))
  = map Rocket.id
        (firstn (length (rockets self) / 5) (sorted fitter (rockets self))).
Proof.
  intros E. unfold next_gen in E.
  apply bind_M_ok in E. destruct E as (elite & p1 & E1 & E).
  apply bind_M_ok in E. destruct E as (pool & p2 & E2 & E).
  apply bind_M_ok in E. destruct E as (pool' & p3 & E3 & E).
  rewrite ret_M in E. inversion E; subst; clear E. simpl rockets.
  pose proof (selection_spec _ _ _ _ E1) as He. cbv beta in He. subst elite.
  destruct (crossover_prefix _ _ _ _ _ E2) as [offspring ->].
  destruct (mutation_spec _ _ _ _ E3) as (_ & Hids & _).
  destruct (reset_rockets_spec self pool') as (_ & Hreset & _).
  rewrite Hreset, Hids, map_app.
  rewrite firstn_app, firstn_all2 by (rewrite length_map, elite_length; lia).
  rewrite length_map, elite_length, Nat.sub_diag. simpl. apply app_nil_r.
Qed.

(** X5: mutation always returns and rewrites genes only.  Every rocket
    keeps its place in the pool, its id, fitness, alive flag, heading and
    position, and its genome keeps its length; a gene either stays or is
    redrawn in [-7, 7]. *)
Theorem mutation_rewrites_genes_only (rockets : list Rocket.t) :
  succeeds (_mutation rockets)
  /\ ensures (_mutation rockets)
       (Forall2
          (fun r r' =>
             Rocket.id r' = Rocket.id r
             /\ Rocket.fitness r' = Rocket.fitness r
             /\ Rocket.alive r' = Rocket.alive r
             /\ Rocket.angle r' = Rocket.angle r
             /\ Rocket.pos r' = Rocket.pos r
             /\ Forall2 (fun g g' => g' = g \/ (-7 <= g' <= 7)%Z)
                        (Rocket.genome r) (Rocket.genome r'))
          rockets).
Proof.
  split; [apply mutation_succeeds |].
  unfold _mutation. apply ensures_for_each. intros r _.
  eapply ensures_bind.
  - apply ensures_for_each
      with (Q := fun g g' => g' = g \/ (-7 <= g' <= 7)%Z).
    intros g _. unfold mutate_gene.
    eapply ensures_bind; [apply ensures_true |]. intros u _.
    destruct (Qle_bool u float_0_1).
    + eapply ensures_weaken; [apply randint_range |]. intros g' Hg'. now right.
    + apply ensures_ret. now left.
  - intros g Hg. apply ensures_ret. simpl. repeat split; auto.
Qed.

(** ** A simulation step, more closely *)

Lemma update_display (self self' : Simulation) :
  update self = Ok self' ->
  fps self' = fps self /\ best_fitness self' = best_fitness self.
Proof.
  unfold update. simpl.
  destruct (for_each (update_rocket self) (rockets self)) as [moved | e];
    [| discriminate].
  unfold _fitness, _check_collision. simpl.
  match goal with
  | |- match for_each ?g ?l with _ => _ end = _ -> _ =>
      destruct (for_each g l) as [scored | e]; [| discriminate]
  end.
  intros E. inversion E; subst. now split.
Qed.

(** X6: a simulation step keeps the population and the world: the same
    agents in the same order with the same genomes, the same generation,
    start, goal, obstacles, window, configured size, frame rate and best
    fitness; only the tick index moves, by exactly one. *)
Theorem update_keeps_population (self self' : Simulation) :
  update self = Ok self' ->
  map Rocket.id (rockets self') = map Rocket.id (rockets self)
  /\ map Rocket.genome (rockets self') = map Rocket.genome (rockets self)
  /\ index self' = (index self + 1)%nat
  /\ generation self' = generation self
  /\ start self' = start self /\ goal self' = goal self
  /\ obstacles self' = obstacles self /\ win_size self' = win_size self
  /\ population self' = population self
  /\ fps self' = fps self /\ best_fitness self' = best_fitness self.
Proof.
  intros E. destruct (update_display _ _ E) as [Hf Hb].
  pose proof (update_ids _ _ E) as Hids.
  destruct (update_steps _ _ E) as (Hs & Hi & Hg & Hst & Hgl & Ho & Hw & Hp).
  repeat split; auto.
  clear E Hids. induction Hs as [| r r' t t' Hr Ht IH]; simpl; [reflexivity |].
  destruct (rocket_step_genome _ _ _ Hr) as [-> _]. now rewrite IH.
Qed.

Lemma alive_count_le (l l' : list Rocket.t) :
  Forall2 (fun r r' => Rocket.alive r = false -> Rocket.alive r' = false) l l' ->
  (length (filter Rocket.alive l') <= length (filter Rocket.alive l))%nat.
Proof.
  induction 1 as [| r r' t t' Hr Ht IH]; simpl; [lia |].
  destruct (Rocket.alive r) eqn:Ea.
  - destruct (Rocket.alive r'); simpl; lia.
  - rewrite (Hr eq_refl). exact IH.
Qed.

(** X7: no simulation step revives an agent: through any number of steps
    the count of alive agents never grows. *)
Theorem alive_count_never_grows (n : nat) (self self' : Simulation) :
  updates n self = Ok self' ->
  (alive_rockets self' <= alive_rockets self)%nat.
Proof.
  revert self. induction n as [| n IH]; intros self E; simpl in E.
  - inversion E; subst. lia.
  - destruct (update self) as [mid | e] eqn:Eu; [| discriminate].
    specialize (IH _ E). apply update_steps in Eu. destruct Eu as (Hs & _).
    assert (alive_rockets mid <= alive_rockets self)%nat; [| lia].
    apply alive_count_le. eapply Forall2_impl; [| exact Hs].
    intros r r' Hstep Hd. apply (rocket_step_liveness _ _ _ Hstep). now left.
Qed.

Lemma fitness_rescored (self : Simulation) (f : Rocket.t -> R)
    (rs : list Rocket.t) :
  _fitness self (map (fun r => Rocket.set_fitness r (f r)) rs) = _fitness self rs.
Proof.
  unfold _fitness. induction rs as [| r t IH]; simpl; [reflexivity |].
  destruct (truediv _ _) as [q | e]; [| reflexivity].
  simpl in *. now rewrite IH.
Qed.

(** X8: the fitness pass looks at positions only.  Scoring again what a
    pass returned returns it unchanged, and whatever fitness the agents
    held before the pass has no influence on its result. *)
Theorem fitness_pass_is_idempotent (self : Simulation)
    (rs rs' : list Rocket.t) :
  _fitness self rs = Ok rs' ->
  _fitness self rs' = Ok rs'
  /\ forall f : Rocket.t -> R,
       _fitness self (map (fun r => Rocket.set_fitness r (f r)) rs) = Ok rs'.
Proof.
  intros E. split; [| intros f; now rewrite fitness_rescored].
  unfold _fitness in *. apply for_each_result_Forall2 in E.
  induction E as [| r r' t t' Hr Ht IH]; simpl; [reflexivity |].
  apply fitness_body_inv in Hr. destruct Hr as (q & Hq & ->).
  simpl. simpl in Hq. rewrite Hq. simpl. simpl in IH. now rewrite IH.
Qed.

Lemma for_each_result_raise {A B : Type} (f : A -> result B) (l : list A)
    (e : exn) :
  for_each f l = Raise e -> exists a, In a l /\ f a = Raise e.
Proof.
  induction l as [| a t IH]; simpl; [discriminate |].
  destruct (f a) as [b | e'] eqn:Ea.
  - destruct (for_each f t) as [bs | e'']; [discriminate |].
    intros E. inversion E; subst. destruct (IH eq_refl) as (a' & Hin & Ha').
    exists a'. auto.
  - intros E. inversion E; subst. exists a. auto.
Qed.

Lemma update_rocket_raise (self : Simulation) (r : Rocket.t) (e : exn) :
  update_rocket self r = Raise e -> e = ZeroDivisionError.
Proof.
  unfold update_rocket. destruct (Rocket.alive r); [| discriminate]. simpl.
  unfold mod_. destruct (length (Rocket.genome r)) as [| k] eqn:El.
  - intros E. now inversion E.
  - simpl bind. unfold getitem.
    destruct (nth_error (Rocket.genome r) (index self mod S k)) eqn:Ed;
      [discriminate |].
    apply nth_error_None in Ed.
    pose proof (Nat.mod_upper_bound (index self) (S k)). lia.
Qed.

Lemma fitness_raises (self : Simulation) (r : Rocket.t) (rs : list Rocket.t) :
  start self = goal self -> _fitness self (r :: rs) = Raise ZeroDivisionError.
Proof.
  intros Heq. unfold _fitness. simpl.
  apply start_goal_distance in Heq. now rewrite Heq, truediv_zero.
Qed.

(** [update] raises nothing but [ZeroDivisionError]. *)
Lemma update_raise (self : Simulation) (e : exn) :
  update self = Raise e -> e = ZeroDivisionError.
Proof.
  unfold update. simpl.
  destruct (for_each (update_rocket self) (rockets self)) as [moved | e'] eqn:Em.
  - unfold _fitness, _check_collision. simpl.
    match goal with
    | |- match for_each ?g ?l with _ => _ end = _ -> _ =>
        destruct (for_each g l) as [scored | e''] eqn:Es; [discriminate |]
    end.
    intros E. inversion E; subst.
    apply for_each_result_raise in Es. destruct Es as (m & _ & Hm).
    simpl in Hm. unfold truediv in Hm.
    destruct (Req_dec_T _ 0); [now inversion Hm | discriminate].
  - intros E. inversion E; subst.
    apply for_each_result_raise in Em. destruct Em as (r & _ & Hr).
    now apply update_rocket_raise in Hr.
Qed.

(** X9: a goal on the start point stops the simulation.  A right click
    moves the goal to the pointer and changes nothing else; when the
    pointer is on the start point and the population is not empty, the
    next simulation step raises [ZeroDivisionError]. *)
Theorem right_click_on_start_raises (cnf : Config.t) (done : bool)
    (sim : Simulation) (x y : Z) (p : Process) :
  rockets sim <> [] ->
  start sim = Point.mk (IZR x) (IZR y) ->
  handle_event cnf (done, sim) (MOUSEBUTTONUP 3 (x, y)) p
  = (Ok (done, set_goal sim (Point.mk (IZR x) (IZR y))), p)
  /\ update (set_goal sim (Point.mk (IZR x) (IZR y))) = Raise ZeroDivisionError.
Proof.
  intros Hne Hst. split; [reflexivity |].
  set (sim' := set_goal sim (Point.mk (IZR x) (IZR y))).
  assert (Heq : start sim' = goal sim') by exact Hst.
  destruct (update sim') as [self' | e] eqn:Eu.
  - exfalso. unfold update in Eu. simpl in Eu.
    destruct (for_each (update_rocket sim') (rockets sim)) as [moved | e] eqn:Em;
      [| discriminate].
    apply for_each_result_Forall2 in Em.
    destruct Em as [| r m t moved' _ _]; [congruence |].
    unfold _check_collision in Eu. simpl in Eu.
    match type of Eu with
    | context [_fitness ?s (?a :: ?l)] =>
        rewrite (fitness_raises s a l Heq) in Eu
    end.
    discriminate.
  - f_equal. now apply update_raise in Eu.
Qed.

(** ** The loop of [main], more closely *)

Lemma next_gen_display (self : Simulation) :
  ensures (next_gen self)
    (fun self' => fps self' = fps self
                  /\ best_fitness self' = best_fitness self).
Proof.
  unfold next_gen.
  eapply ensures_bind; [apply ensures_true |]. intros elite _.
  eapply ensures_bind; [apply ensures_true |]. intros pool _.
  eapply ensures_bind; [apply ensures_true |]. intros pool' _.
  apply ensures_ret. now split.
Qed.

Lemma tick_fps (sim : Simulation) :
  ensures (tick sim) (fun sim' => fps sim' = fps sim).
Proof.
  unfold tick.
  eapply ensures_bind with (P := fun s => fps s = fps sim).
  - unfold breed_if_none_alive. destruct (alive_rockets sim =? 0)%nat.
    + eapply ensures_bind; [apply ensures_true |]. intros ? _.
      eapply ensures_weaken; [apply next_gen_display |]. now intros s [H _].
    + now apply ensures_ret.
  - intros sim1 H1. unfold step_unless_solved.
    destruct (negb (found_solution sim1)); [| now apply ensures_ret].
    eapply ensures_bind; [apply ensures_true |]. intros ? _.
    eapply ensures_bind with (P := fun s => fps s = fps sim).
    + apply ensures_lift. intros sim2 E.
      destruct (update_display _ _ E) as [-> _]. exact H1.
    + intros sim2 H2.
      eapply ensures_bind; [apply ensures_true |]. intros ? _.
      apply ensures_lift. intros sim3 E. apply draw_inv in E.
      destruct E as [b ->]. exact H2.
Qed.

Lemma restart_fps (cnf : Config.t) (self : Simulation) :
  ensures (restart cnf self) (fun self' => fps self' = 30%Z).
Proof.
  unfold restart.
  eapply ensures_bind; [apply ensures_true |]. intros rs _.
  now apply ensures_ret.
Qed.

Lemma handle_event_fps (cnf : Config.t) (st : bool * Simulation)
    (event : Event) :
  fps_ok (fps (snd st)) ->
  ensures (handle_event cnf st event) (fun st' => fps_ok (fps (snd st'))).
Proof.
  destruct st as [done sim]. simpl snd. intros [Hr Hm]. unfold handle_event.
  destruct event as [| [| | | |] | button [x y] |];
    try (apply ensures_ret; now split).
  - destruct (Z.ltb_spec (fps sim) 300); apply ensures_ret; simpl;
      [| now split].
    unfold fps_ok. Z.div_mod_to_equations. lia.
  - destruct (Z.ltb_spec 5 (fps sim)); apply ensures_ret; simpl;
      [| now split].
    unfold fps_ok. Z.div_mod_to_equations. lia.
  - eapply ensures_bind; [apply ensures_true |]. intros ? _.
    eapply ensures_bind; [apply restart_fps |]. intros sim' Hs.
    apply ensures_ret. simpl. rewrite Hs. split; [lia | reflexivity].
  - destruct (button =? 3)%Z; apply ensures_ret; now split.
Qed.

Lemma run_fps (cnf : Config.t) (frames : list (list Event))
    (st : bool * Simulation) :
  fps_ok (fps (snd st)) ->
  ensures (run cnf frames st) (fun st' => fps_ok (fps (snd st'))).
Proof.
  revert st. induction frames as [| events rest IH]; intros st H; cbn [run].
  - now apply ensures_ret.
  - destruct (fst st); [now apply ensures_ret |].
    eapply ensures_bind with (P := fun st' => fps_ok (fps (snd st')));
      [| exact IH].
    unfold loop_body.
    eapply ensures_bind with (P := fun st' => fps_ok (fps (snd st'))).
    + clear IH. revert st H.
      induction events as [| e t IHe]; intros st H; cbn [handle_events].
      * now apply ensures_ret.
      * eapply ensures_bind; [now apply handle_event_fps | exact IHe].
    + intros st1 H1.
      eapply ensures_bind; [apply tick_fps |]. intros sim2 H2.
      apply ensures_ret. simpl. now rewrite H2.
Qed.

(** X10: the frame rate stays in range.  In every state that the loop of
    [main] reaches, whatever keys were pressed, the frame rate is a
    multiple of 5 between 5 and 300. *)
Theorem fps_stays_in_range (cnf : Config.t) (frames : list (list Event))
    (p p' : Process) (st : bool * Simulation) :
  main cnf frames p = (Ok st, p') ->
  (5 <= fps (snd st) <= 300)%Z /\ (fps (snd st) mod 5 = 0)%Z.
Proof.
  intros E. unfold main in E. apply bind_M_ok in E.
  destruct E as (sim & p1 & Es & E).
  apply restart_fps in Es.
  apply (run_fps cnf frames (false, sim)) in E; [exact E |].
  simpl. rewrite Es. split; [lia | reflexivity].
Qed.

Lemma handle_events_done (cnf : Config.t) (events : list Event) :
  forall (done : bool) (sim : Simulation) (p p' : Process)
         (st' : bool * Simulation),
    handle_events cnf events (done, sim) p = (Ok st', p') ->
    fst st' = done || existsb is_quit events.
Proof.
  induction events as [| e t IH]; intros done sim p p' st' E;
    cbn [handle_events] in E.
  - rewrite ret_M in E. inversion E; subst. simpl. now rewrite orb_false_r.
  - apply bind_M_ok in E. destruct E as ([d1 s1] & p1 & E1 & E).
    apply IH in E. rewrite E. simpl existsb. rewrite orb_assoc. f_equal.
    clear E IH. unfold handle_event in E1.
    destruct e as [| [| | | |] | button [x y] |]; simpl;
      try (rewrite ret_M in E1; inversion E1; subst;
           now rewrite ?orb_true_r, ?orb_false_r).
    + destruct (fps sim <? 300)%Z; rewrite ret_M in E1; inversion E1;
        now rewrite orb_false_r.
    + destruct (5 <? fps sim)%Z; rewrite ret_M in E1; inversion E1;
        now rewrite orb_false_r.
    + apply bind_M_ok in E1. destruct E1 as (u & q & _ & E1).
      apply bind_M_ok in E1. destruct E1 as (s' & q' & _ & E1).
      rewrite ret_M in E1. inversion E1. now rewrite orb_false_r.
    + destruct (button =? 3)%Z; rewrite ret_M in E1; inversion E1;
        now rewrite orb_false_r.
Qed.

Lemma run_done (cnf : Config.t) (frames : list (list Event))
    (st : bool * Simulation) (p : Process) :
  fst st = true -> run cnf frames st p = (Ok st, p).
Proof.
  intros H. destruct frames as [| events rest]; cbn [run]; [reflexivity |].
  now rewrite H.
Qed.

(** X11: a quit request ends the loop after the iteration it arrives in.
    The iteration of the frame sets [done] exactly when the frame holds a
    QUIT event or the release of the q key; it is completed all the same
    (the rest of its events is handled, the simulation ticks), the frames
    after it are not processed, and without such an event the loop goes on
    with the next frame. *)
Theorem quit_ends_the_loop (cnf : Config.t) (events : list Event)
    (rest : list (list Event)) (sim : Simulation) (p p' : Process)
    (st' : bool * Simulation) :
  loop_body cnf events (false, sim) p = (Ok st', p') ->
  fst st' = existsb is_quit events
  /\ run cnf (events :: rest) (false, sim) p
     = (if existsb is_quit events then (Ok st', p') else run cnf rest st' p').
Proof.
  intros E.
  assert (Hd : fst st' = existsb is_quit events).
  { unfold loop_body in E. apply bind_M_ok in E.
    destruct E as (st1 & p1 & E1 & E). apply bind_M_ok in E.
    destruct E as (sim2 & p2 & _ & E). rewrite ret_M in E.
    inversion E; subst. simpl. now apply handle_events_done in E1. }
  split; [exact Hd |].
  cbn [run fst]. rewrite bind_M, E. rewrite <- Hd.
  destruct (fst st') eqn:Ef; [now apply run_done | reflexivity].
Qed.

Lemma restart_empty (cnf : Config.t) (self : Simulation) (p : Process) :
  (Config.population cnf <= 0)%Z ->
  exists self',
    restart cnf self p = (Ok self', p)
    /\ rockets self' = [] /\ population self' = Config.population cnf.
Proof.
  intros H. unfold restart.
  replace (Z.to_nat (Config.population cnf)) with 0%nat by lia.
  eexists. rewrite bind_M. simpl. repeat split.
Qed.

Lemma tick_empty (sim : Simulation) (p : Process) :
  rockets sim = [] -> (population sim <= 0)%Z ->
  fst (tick sim p) = Raise ValueError.
Proof.
  intros Hr Hp. unfold tick, breed_if_none_alive.
  assert (Ha : alive_rockets sim = 0%nat) by (unfold alive_rockets; now rewrite Hr).
  rewrite Ha. cbn [Nat.eqb]. rewrite bind_M, bind_M. unfold tell at 1.
  assert (Hq : Z.to_nat ((population sim - Z.of_nat (length (rockets sim) / 5)) ÷ 2)
               = 0%nat).
  { rewrite Hr. simpl.
    pose proof (Z.mul_quot_ge (population sim - 0) 2 ltac:(lia) ltac:(lia)). lia. }
  match goal with
  | |- context [next_gen sim ?q] =>
      destruct (next_gen_succeeds sim) with (p := q) as (sim1 & p1 & En)
  end.
  { rewrite Hr. constructor. }
  { now right. }
  rewrite En.
  destruct (next_gen_spec sim _ _ _ En) as (Hlen & _).
  unfold pool_size in Hlen. rewrite Hq, Hr in Hlen. simpl in Hlen.
  apply length_zero_iff_nil in Hlen.
  unfold step_unless_solved, found_solution. rewrite Hlen.
  cbn [existsb negb]. rewrite bind_M. unfold tell at 1. rewrite bind_M.
  unfold lift at 1, update. rewrite Hlen. cbn [for_each]. simpl.
  reflexivity.
Qed.

Lemma handle_events_empty (cnf : Config.t) (events : list Event) :
  (Config.population cnf <= 0)%Z ->
  forall (done : bool) (sim : Simulation) (p : Process),
    rockets sim = [] -> (population sim <= 0)%Z ->
    exists done' sim' p',
      handle_events cnf events (done, sim) p = (Ok (done', sim'), p')
      /\ rockets sim' = [] /\ (population sim' <= 0)%Z.
Proof.
  intros Hc. induction events as [| e t IH]; intros done sim p Hr Hp;
    cbn [handle_events].
  - exists done, sim, p. now rewrite ret_M.
  - rewrite bind_M.
    assert (He : exists done1 sim1 p1,
               handle_event cnf (done, sim) e p = (Ok (done1, sim1), p1)
               /\ rockets sim1 = [] /\ (population sim1 <= 0)%Z).
    { unfold handle_event.
      destruct e as [| [| | | |] | button [x y] |];
        try (eexists _, _, _; rewrite ret_M; now repeat split).
      - destruct (fps sim <? 300)%Z; eexists _, _, _; rewrite ret_M;
          now repeat split.
      - destruct (5 <? fps sim)%Z; eexists _, _, _; rewrite ret_M;
          now repeat split.
      - rewrite bind_M. unfold tell at 1. rewrite bind_M.
        match goal with
        | |- context [restart cnf sim ?q] =>
            destruct (restart_empty cnf sim q Hc) as (s' & Es & Hs & Hps)
        end.
        rewrite Es, ret_M.
        eexists _, _, _. split; [reflexivity |].
        split; [exact Hs | now rewrite Hps].
      - destruct (button =? 3)%Z; eexists _, _, _; rewrite ret_M;
          now repeat split. }
    destruct He as (d1 & s1 & p1 & -> & Hr1 & Hp1). now apply IH.
Qed.

(** X12: an empty population stops the program in its first frame.  When
    the configured population is 0 or less, the first iteration of the
    loop, whatever its events, breeds an empty pool, steps it and then
    raises [ValueError]: drawing takes the maximum of an empty sequence. *)
Theorem empty_population_raises (cnf : Config.t) (events : list Event)
    (rest : list (list Event)) (p : Process) :
  (Config.population cnf <= 0)%Z ->
  fst (main cnf (events :: rest) p) = Raise ValueError.
Proof.
  intros Hc. unfold main, Simulation__init__. rewrite bind_M.
  match goal with
  | |- context [restart cnf ?s p] =>
      destruct (restart_empty cnf s p Hc) as (sim & -> & Hr & Hp)
  end.
  cbn [run fst]. unfold loop_body. rewrite !bind_M.
  destruct (handle_events_empty cnf events Hc false sim p Hr)
    as (d1 & s1 & p1 & -> & Hr1 & Hp1); [now rewrite Hp |].
  cbn [snd fst]. rewrite bind_M.
  pose proof (tick_empty s1 p1 Hr1 Hp1) as Ht.
  destruct (tick s1 p1) as [[s2 | e] p2]; simpl in Ht; [discriminate |].
  now inversion Ht.
Qed.

(** X13: ids are never shared.  In every state that the loop of [main]
    reaches, through any breeding and any restart, no two agents have the
    same id, and every id is below the counter [Rocket._id], which no
    later rocket can get. *)
Theorem ids_are_never_shared (cnf : Config.t) (frames : list (list Event))
    (p p' : Process) (st : bool * Simulation) :
  main cnf frames p = (Ok st, p') ->
  NoDup (map Rocket.id (rockets (snd st)))
  /\ Forall (fun r => (Rocket.id r < _id p')%nat) (rockets (snd st)).
Proof.
  intros E. unfold main in E. apply bind_M_ok in E.
  destruct E as (sim & p1 & Es & E).
  unfold Simulation__init__ in Es.
  pose proof (restart_fresh _ _ _ _ _ I Es) as H.
  destruct (run_fresh cnf frames (false, sim) p1 st p' H E) as [Hn Hf].
  split; [exact Hn |]. now apply Forall_map in Hf.
Qed.

(** ** Drawing *)

Lemma max_from_spec (best : Rocket.t) (l : list Rocket.t) :
  let m := max_from (fun a b => Rltb (Rocket.fitness a) (Rocket.fitness b))
                    best l in
  In m (best :: l)
  /\ Forall (fun r => Rocket.fitness r <= Rocket.fitness m) (best :: l).
Proof.
  revert best. induction l as [| a t IH]; intros best; simpl.
  - split; [now left | repeat constructor; lra].
  - destruct (Rltb (Rocket.fitness best) (Rocket.fitness a)) eqn:E.
    + apply Rltb_lt in E. destruct (IH a) as [Hin Hall].
      split; [now right |].
      inversion Hall as [| ? ? Ha Ht]; subst.
      constructor; [lra |]. now constructor.
    + apply Rltb_ge in E. destruct (IH best) as [Hin Hall].
      split; [destruct Hin as [<- | Hin]; [now left | now right; right] |].
      inversion Hall as [| ? ? Hb Ht]; subst.
      constructor; [exact Hb |]. constructor; [lra | exact Ht].
Qed.

(** X14: drawing keeps a high-water mark.  With no agent, [draw] raises
    [ValueError]; otherwise it returns, changes nothing but the best
    fitness, and sets it to the greater of its old value and the rounded
    fitness of a fittest agent, so the mark never goes down. *)
Theorem draw_keeps_high_water_mark (sim : Simulation) :
  (rockets sim = [] -> draw sim = Raise ValueError)
  /\ (rockets sim <> [] ->
      exists best,
        In best (rockets sim)
        /\ Forall (fun r => Rocket.fitness r <= Rocket.fitness best)
                  (rockets sim)
        /\ draw sim
           = Ok (set_best_fitness sim
                   (Z.max (best_fitness sim) (round (Rocket.fitness best)))))
  /\ (forall sim',
        draw sim = Ok sim' -> (best_fitness sim <= best_fitness sim')%Z).
Proof.
  split; [| split].
  - intros H. unfold draw. now rewrite H.
  - intros H. unfold draw. destruct (rockets sim) as [| r t]; [congruence |].
    destruct (max_from_spec r t) as [Hin Hall]. simpl.
    eexists. split; [exact Hin |]. split; [exact Hall | reflexivity].
  - intros sim' E. apply draw_inv in E. destruct E as [b ->]. simpl. lia.
Qed.

(** ** One iteration of the loop *)

(** X15: what one iteration does to the counters.  The generation goes
    up by one exactly when no agent was alive and stays otherwise; the
    tick index is at most one after a generation change and otherwise
    stays (solved) or goes up by one; the best fitness never goes down;
    start, goal, obstacles, window and configured population stay. *)
Theorem tick_moves_the_counters (sim sim' : Simulation) (p p' : Process) :
  tick sim p = (Ok sim', p') ->
  generation sim'
  = (if (alive_rockets sim =? 0)%nat then generation sim + 1
     else generation sim)%nat
  /\ (if (alive_rockets sim =? 0)%nat then (index sim' <= 1)%nat
      else if found_solution sim then sim' = sim
           else index sim' = (index sim + 1)%nat)
  /\ (best_fitness sim <= best_fitness sim')%Z
  /\ start sim' = start sim /\ goal sim' = goal sim
  /\ obstacles sim' = obstacles sim /\ win_size sim' = win_size sim
  /\ population sim' = population sim.
Proof.
  intros E. apply tick_inv in E. destruct E as (sim1 & H1 & H2).
  assert (Hstep :
            generation sim' = generation sim1
            /\ (if found_solution sim1 then sim' = sim1
                else index sim' = (index sim1 + 1)%nat)
            /\ (best_fitness sim1 <= best_fitness sim')%Z
            /\ start sim' = start sim1 /\ goal sim' = goal sim1
            /\ obstacles sim' = obstacles sim1 /\ win_size sim' = win_size sim1
            /\ population sim' = population sim1).
  { destruct (found_solution sim1).
    - subst sim'. repeat split; lia.
    - destruct H2 as (sim2 & Eu & Ed).
      destruct (update_display _ _ Eu) as [_ Hb].
      destruct (update_steps _ _ Eu) as (_ & Hi & Hg & Hst & Hgl & Ho & Hw & Hp).
      apply draw_inv in Ed. destruct Ed as [b ->]. simpl.
      repeat split; try congruence. lia. }
  destruct Hstep as (Hg & Hi & Hb & Hst & Hgl & Ho & Hw & Hp).
  destruct (alive_rockets sim =? 0)%nat.
  - destruct H1 as (q & q' & En).
    destruct (next_gen_display _ _ _ _ En) as [_ Hb1].
    destruct (next_gen_spec _ _ _ _ En)
      as (_ & Hi1 & Hg1 & _ & _ & Hst1 & Hgl1 & Ho1 & Hw1 & Hp1).
    repeat split; try congruence; try lia.
    destruct (found_solution sim1); [subst sim' |]; lia.
  - subst sim1. repeat split; auto.
Qed.

(** ** Selection, more closely *)

Lemma sorted_prefix_is_fitter (l : list Rocket.t) :
  StronglySorted (fun a b => Rocket.fitness b <= Rocket.fitness a) l ->
  forall n e r,
    In e (firstn n l) -> In r (skipn n l) ->
    Rocket.fitness r <= Rocket.fitness e.
Proof.
  induction 1 as [| a t Ht IH Ha]; intros n e r He Hr.
  - rewrite firstn_nil in He. contradiction.
  - destruct n as [| n]; simpl in He, Hr; [contradiction |].
    destruct He as [<- | He].
    + rewrite Forall_forall in Ha. apply Ha.
      rewrite <- (firstn_skipn n t). apply in_or_app. now right.
    + now apply (IH n).
Qed.

(** X16: selection prefers the fitter.  The elite pool holds
    floor(|population| / 5) agents of the population, and no agent left
    out is strictly fitter than an agent of the pool. *)
Theorem selection_prefers_the_fitter (rs elite : list Rocket.t)
    (p p' : Process) :
  _selection rs p = (Ok elite, p') ->
  length elite = (length rs / 5)%nat
  /\ exists others,
      Permutation (elite ++ others) rs
      /\ forall e r, In e elite -> In r others ->
                     Rocket.fitness r <= Rocket.fitness e.
Proof.
  intros E. pose proof (selection_spec _ _ _ _ E) as He. cbv beta in He.
  subst elite. split; [apply elite_length |].
  exists (skipn (length rs / 5) (sorted fitter rs)).
  rewrite firstn_skipn. split; [apply sorted_perm |].
  intros e r. apply sorted_prefix_is_fitter. apply sorted_fitter_stable.
Qed.

(** ** The genome as a flight plan *)

Lemma mod_plus_multiple (a j b : nat) : mod_ (a + j * b) b = mod_ a b.
Proof.
  unfold mod_. destruct b as [| n].
  - reflexivity.
  - now rewrite Nat.Div0.mod_add.
Qed.

Lemma update_rocket_cycle (self : Simulation) (r : Rocket.t) (k : nat) :
  update_rocket
    (set_index self (index self + k * length (Rocket.genome r))) r
  = update_rocket self r.
Proof.
  unfold update_rocket. destruct (Rocket.alive r); [| reflexivity].
  cbv zeta. simpl index.
  change (Rocket.genome (Rocket.apply_force r 3)) with (Rocket.genome r).
  now rewrite mod_plus_multiple.
Qed.

Lemma for_each_ext {A B : Type} (f g : A -> result B) (l : list A) :
  Forall (fun a => f a = g a) l -> for_each f l = for_each g l.
Proof.
  induction 1 as [| a t Ha _ IH]; [reflexivity |].
  cbn [for_each]. now rewrite Ha, IH.
Qed.

(** X21: the genome is read in a circle.  With genomes of 300 genes, the
    simulation step at tick index + 300 * k does to the agents what the
    step at tick index does: it returns whenever that one does, with the
    same agents and the same state, the tick index apart, which is the
    other one moved on by 300 * k. *)
Theorem genome_is_read_in_a_circle (self self' : Simulation) (k : nat) :
  Forall (fun r => length (Rocket.genome r) = 300%nat) (rockets self) ->
  update self = Ok self' ->
  update (set_index self (index self + k * 300))
  = Ok (set_index self' (index self' + k * 300)).
Proof.
  intros Hlen E. unfold update in *.
  assert (Hm : for_each (update_rocket (set_index self (index self + k * 300)))
                        (rockets self)
               = for_each (update_rocket self) (rockets self)).
  { apply for_each_ext. eapply Forall_impl; [| exact Hlen].
    intros r Hr. cbv beta in *. rewrite <- Hr. apply update_rocket_cycle. }
  change (rockets (set_index self (index self + k * 300))) with (rockets self).
  rewrite Hm. destruct (for_each (update_rocket self) (rockets self))
    as [moved | e]; [| discriminate].
  cbn [bind Monad_result] in *. cbv zeta in *.
  unfold _fitness, _check_collision in *. cbn [rockets set_rockets set_index
    start goal index] in *.
  match type of E with
  | match ?x with _ => _ end = _ => destruct x as [scored | e] eqn:Es
  end; [| discriminate].
  inversion E; subst self'; clear E.
  unfold check_rocket in *. cbn [win_size obstacles set_rockets set_index] in *.
  rewrite Es. cbn [ret index set_rockets set_index]. do 2 f_equal.
  unfold set_rockets, set_index. cbn [index rockets win_size obstacles
    generation best_fitness fps population start goal].
  replace (index self + k * 300 + 1)%nat with (index self + 1 + k * 300)%nat
    by lia.
  reflexivity.
Qed.

Lemma instructions_S (g : list Z) (tick n : nat) :
  instructions g tick (S n)
  = (nth (tick mod length g) g 0 + instructions g (S tick) n)%Z.
Proof. reflexivity. Qed.

(** X22: the heading adds up.  An agent that is still alive after [n]
    simulation steps has turned by the sum of the [n] instructions that
    its genome gives from the first of these ticks on, and an agent that
    was dead before is dead after. *)
Theorem heading_adds_up (n : nat) (self self' : Simulation) :
  updates n self = Ok self' ->
  Forall2
    (fun r r' =>
       (Rocket.alive r = false -> Rocket.alive r' = false)
       /\ (Rocket.alive r' = true ->
           Rocket.angle r'
           = (Rocket.angle r + instructions (Rocket.genome r) (index self) n)%Z))
    (rockets self) (rockets self').
Proof.
  revert self. induction n as [| n IH]; intros self E; simpl in E.
  - inversion E; subst. induction (rockets self'); constructor; auto.
    split; [auto | intros _; simpl; lia].
  - destruct (update self) as [mid | e] eqn:Eu; [| discriminate].
    apply update_steps in Eu. destruct Eu as (Hs & Hi & _).
    specialize (IH _ E). rewrite Hi in IH. revert IH.
    generalize (rockets self').
    induction Hs as [| r m t mids Hrm Ht IHt]; intros l' Hl'.
    + inversion Hl'. constructor.
    + inversion Hl' as [| m' r' mids' t' [Hdead Hsum] Hrest]; subst.
      constructor; [| now apply IHt].
      split.
      * intros Ha. apply Hdead. now apply (rocket_step_dead _ _ _ Hrm Ha).
      * intros Ha.
        assert (Hm : Rocket.alive m = true).
        { destruct (Rocket.alive m); [reflexivity |].
          rewrite (Hdead eq_refl) in Ha. discriminate. }
        assert (Hr : Rocket.alive r = true).
        { destruct (Rocket.alive r) eqn:Er; [reflexivity |].
          destruct (rocket_step_dead _ _ _ Hrm Er) as (_ & _ & Hd).
          congruence. }
        destruct (rocket_step_alive _ _ _ Hrm Hr) as (d & Hd & Hang & _).
        destruct (rocket_step_genome _ _ _ Hrm) as [Hg _].
        rewrite (Hsum Ha), Hang, Hg, instructions_S, Nat.add_1_r.
        rewrite (nth_error_nth _ _ 0%Z Hd). lia.
Qed.

(** ** When an iteration returns *)

Lemma step_runs (sim : Simulation) (p : Process) :
  start sim <> goal sim -> Forall genome_ok (rockets sim) ->
  rockets sim <> [] ->
  exists sim' p', step_unless_solved sim p = (Ok sim', p').
Proof.
  intros Hne Hg Hr. unfold step_unless_solved.
  destruct (found_solution sim); cbn [negb]; [now eexists _, _ |].
  destruct (update_total sim Hne) as [sim2 Eu].
  { eapply Forall_impl; [| exact Hg]. intros r [Hl _] C.
    rewrite C in Hl. discriminate. }
  destruct (draw_total sim2) as [sim3 Ed].
  { destruct (update_steps _ _ Eu) as (Hs & _). apply Forall2_length in Hs.
    intros C. rewrite C in Hs. destruct (rockets sim); [congruence | discriminate]. }
  rewrite bind_M. unfold tell at 1. rewrite bind_M. unfold lift at 1.
  rewrite Eu, bind_M. unfold tell, lift. rewrite Ed. now eexists _, _.
Qed.

Lemma tick_runs (sim : Simulation) (p : Process) :
  start sim <> goal sim -> Forall genome_ok (rockets sim) ->
  NoDup (map Rocket.id (rockets sim)) ->
  alive_rockets sim <> 0%nat \/ (2 <= length (rockets sim) / 5)%nat ->
  exists sim' p', tick sim p = (Ok sim', p').
Proof.
  intros Hne Hg Hnd H. unfold tick, breed_if_none_alive. rewrite bind_M.
  destruct (Nat.eqb_spec (alive_rockets sim) 0) as [Ha | Ha].
  - destruct H as [H | H]; [contradiction |].
    rewrite bind_M. unfold tell at 1.
    match goal with
    | |- context [next_gen sim ?q] =>
        destruct (next_gen_succeeds sim Hnd (or_introl H) q) as (sim1 & p1 & En)
    end.
    rewrite En.
    destruct (next_gen_spec sim _ _ _ En)
      as (Hlen & _ & _ & _ & Hok & Hst & Hgl & _).
    apply step_runs; [congruence | now apply Hok |].
    intros C. rewrite C in Hlen. unfold pool_size in Hlen.
    cbn [length] in Hlen. lia.
  - rewrite ret_M. apply step_runs; auto.
    intros C. apply Ha. unfold alive_rockets. now rewrite C.
Qed.

Lemma restart_world (cnf : Config.t) (self : Simulation) :
  ensures (restart cnf self)
    (fun self' =>
       start self' = Point.mk (IZR (fst (Config.start_pos cnf)))
                              (IZR (snd (Config.start_pos cnf)))
       /\ goal self' = Point.mk (IZR (fst (Config.goal cnf)))
                                (IZR (snd (Config.goal cnf)))).
Proof.
  unfold restart.
  eapply ensures_bind; [apply ensures_true |]. intros rs _.
  apply ensures_ret. now split.
Qed.

(** The first frame of a run returns when at least one rocket is
    configured, start and goal differ and the events are quiet. *)
Lemma first_frame_runs (cnf : Config.t) (events : list Event) (p : Process) :
  (0 < Config.population cnf)%Z ->
  Config.start_pos cnf <> Config.goal cnf ->
  Forall (fun e => quiet e = true) events ->
  exists st p', main cnf [events] p = (Ok st, p').
Proof.
  intros Hpop Hne Hq. unfold main, Simulation__init__. rewrite bind_M.
  match goal with
  | |- context [restart cnf ?s p] =>
      destruct (restart_succeeds cnf s p) as (sim & p1 & Es); rewrite Es;
      destruct (restart_spec _ _ _ _ _ Es) as (Hok & Hlen & _ & _ & _ & Hpad);
      destruct (restart_world _ _ _ _ _ Es) as [Hst Hgl];
      pose proof (restart_fresh _ _ _ _ _ I Es) as [Hnd _]
  end.
  cbn [run fst]. unfold loop_body. rewrite !bind_M.
  destruct (handle_events_quiet cnf events sim p1 Hq) as [f ->].
  cbn [snd fst]. rewrite bind_M.
  destruct (tick_runs (set_fps sim f) p1) as (sim' & p' & ->).
  - simpl. rewrite Hst, Hgl. intros C. inversion C as [[Cx Cy]].
    apply eq_IZR in Cx. apply eq_IZR in Cy. apply Hne.
    destruct (Config.start_pos cnf), (Config.goal cnf). simpl in *. congruence.
  - exact Hok.
  - exact Hnd.
  - left. change (alive_rockets (set_fps sim f)) with (alive_rockets sim).
    unfold alive_rockets. rewrite all_alive_count, Hlen; [lia |].
    eapply Forall_impl; [| exact Hpad]. now intros r (_ & _ & Hl).
  - rewrite ret_M. now eexists _, _.
Qed.

End Engine.

(** * Examples *)

Lemma demo_start_goal (rs : list Rocket.t) :
  start (demo_sim rs) <> goal (demo_sim rs).
Proof. simpl. intros E. inversion E. lra. Qed.

Lemma demo_rocket_genome_ok (i : nat) (fit : R) (live : bool) (at_ : Point.t) :
  genome_ok (demo_rocket i fit live at_).
Proof.
  split; [apply repeat_length |]. apply Forall_forall. intros g Hg.
  apply repeat_spec in Hg. subst. unfold gene_ok. lia.
Qed.

Lemma demo_rocket_genome (i : nat) (fit : R) (live : bool) (at_ : Point.t) :
  Rocket.genome (demo_rocket i fit live at_) <> [].
Proof. discriminate. Qed.

Lemma radians_270 : math.radians 270 = 3 * (PI / 2).
Proof. unfold math.radians. lra. Qed.

Lemma cos_277_pos : 0 < cos (math.radians 277).
Proof.
  replace (math.radians 277) with (3 * (PI / 2) + 7 * (PI / 180))
    by (unfold math.radians; lra).
  rewrite cos_plus, cos_3PI2, sin_3PI2.
  assert (0 < sin (7 * (PI / 180))).
  { pose proof PI_RGT_0. apply sin_gt_0; lra. }
  lra.
Qed.

(** C1, witness: a step of one alive rocket on the pad. *)
Lemma update_moves_then_turns_witness :
  exists self' r',
    update in_rect (demo_sim [demo_rocket 0 (-1) true demo_pad]) = Ok self'
    /\ rockets self' = [r']
    /\ Rocket.angle r' = 277%Z
    /\ Rocket.pos r' =
       Point.mk (300 + cos (math.radians 270) * 3)
                (703 + sin (math.radians 270) * 3).
Proof.
  destruct (update_total in_rect (demo_sim [demo_rocket 0 (-1) true demo_pad]))
    as [self' E].
  - apply demo_start_goal.
  - repeat constructor. apply demo_rocket_genome.
  - pose proof (update_moves_then_turns in_rect _ _ E) as H.
    simpl rockets in H at 1.
    inversion H as [| r r' t t' Hr Ht Er Et]; subst.
    inversion Ht; subst.
    destruct (Hr eq_refl) as (d & Hd & Ha & Hp).
    exists self', r'. repeat split; auto.
    + rewrite Ha. simpl in Hd. inversion Hd. reflexivity.
Defined.

(** C1, counterexample: the rocket on the pad, heading 270, is given the
    instruction 7.  The step leaves it at (300, 700), three units along
    heading 270, and not at pad + 3*(cos(rad(277)), sin(rad(277))), where
    a step that turned first would put it. *)
Lemma heading_first_fails :
  exists self' r',
    update in_rect (demo_sim [demo_rocket 0 (-1) true demo_pad]) = Ok self'
    /\ rockets self' = [r']
    /\ Rocket.angle r' = 277%Z
    /\ Rocket.pos r' = Point.mk 300 700
    /\ Rocket.pos r' <>
       Point.mk (300 + 3 * cos (math.radians 277))
                (703 + 3 * sin (math.radians 277)).
Proof.
  destruct (update_total in_rect (demo_sim [demo_rocket 0 (-1) true demo_pad]))
    as [self' E].
  - apply demo_start_goal.
  - repeat constructor. apply demo_rocket_genome.
  - destruct (update_steps in_rect _ _ E) as (H & _).
    simpl rockets in H at 1.
    inversion H as [| r r' t t' Hr Ht Er Et]; subst.
    inversion Ht; subst.
    destruct (rocket_step_alive in_rect _ _ _ Hr eq_refl) as (d & Hd & Ha & Hp).
    simpl in Hd. inversion Hd; subst d. simpl in Ha, Hp.
    assert (Hpos : Rocket.pos r' = Point.mk 300 700).
    { rewrite Hp, radians_270, cos_3PI2, sin_3PI2. f_equal; lra. }
    exists self', r'. repeat split; auto.
    rewrite Hpos. intros C. inversion C as [[Cx Cy]].
    pose proof cos_277_pos. lra.
Qed.

Lemma demo_dead_ids (n : nat) : map Rocket.id (demo_dead_at_goal n) = seq 0 n.
Proof.
  unfold demo_dead_at_goal. rewrite map_map. simpl. apply map_id.
Qed.

Lemma demo_dead_length (n : nat) : length (demo_dead_at_goal n) = n.
Proof. unfold demo_dead_at_goal. now rewrite length_map, length_seq. Qed.

(** C2, witness: ten agents breed a pool of ten. *)
Lemma breeding_pool_size_witness :
  exists self' p',
    next_gen (demo_sim (demo_dead_at_goal 10)) demo_process = (Ok self', p')
    /\ length (rockets self') = 10%nat.
Proof.
  destruct (breeding_pool_size (demo_sim (demo_dead_at_goal 10)) demo_process 10)
    as (self' & p' & E & Hlen & _).
  - reflexivity.
  - reflexivity.
  - simpl rockets. rewrite demo_dead_ids. apply seq_NoDup.
  - right. lia.
  - exists self', p'. split; [exact E | exact Hlen].
Defined.

(** The drift stays: a pool of 100 bred for a configured population of
    101 breeds 100 again. *)
Lemma drift_persists (self : Simulation) (p : Process) :
  length (rockets self) = 100%nat -> population self = 101%Z ->
  NoDup (map Rocket.id (rockets self)) ->
  exists self' p',
    next_gen self p = (Ok self', p')
    /\ length (rockets self') = 100%nat /\ population self' = 101%Z.
Proof.
  intros Hlen Hpop Hnd.
  destruct (next_gen_succeeds self Hnd) with (p := p) as (self' & p' & E).
  { left. rewrite Hlen. simpl. lia. }
  exists self', p'. split; [exact E |].
  destruct (next_gen_spec self _ _ _ E)
    as (Hsize & _ & _ & _ & _ & _ & _ & _ & _ & Hp).
  unfold pool_size in Hsize. rewrite Hlen, Hpop in Hsize.
  split; [exact Hsize | congruence].
Qed.

(** C2, counterexample: with five agents the elite pool holds one agent,
    two rounds of crossover are due, and the first one raises
    [IndexError] when it looks for a second parent: no pool is produced,
    where the formula promises 1 + 2*floor(4/2) = 5 agents. *)
Lemma breeding_fails_for_five :
  fst (next_gen (demo_sim (demo_dead_at_goal 5)) demo_process) = Raise IndexError
  /\ (5 / 5 + 2 * ((5 - 5 / 5) / 2) = 5)%nat.
Proof.
  split; [| reflexivity].
  apply next_gen_degenerate with (N := 5%nat); [reflexivity | reflexivity | lia].
Qed.

(** C3, witness: five agents of fitness 10, 30, 30, 20 and 0; the elite
    is the first of the two agents of fitness 30, and the draw of
    [demo_process] takes the branch that extends the sorted list. *)
Lemma selection_returns_stable_top_witness :
  _selection
    [demo_rocket 0 10 true demo_pad; demo_rocket 1 30 true demo_pad;
     demo_rocket 2 30 true demo_pad; demo_rocket 3 20 true demo_pad;
     demo_rocket 4 0 true demo_pad]
    demo_process
  = (Ok [demo_rocket 1 30 true demo_pad], mkProcess (fun n => n) 1 0 []).
Proof.
  refine (proj2 (selection_returns_stable_top
                   [demo_rocket 0 10 true demo_pad; demo_rocket 1 30 true demo_pad;
                    demo_rocket 2 30 true demo_pad; demo_rocket 3 20 true demo_pad;
                    demo_rocket 4 0 true demo_pad]
                   [demo_rocket 1 30 true demo_pad; demo_rocket 2 30 true demo_pad;
                    demo_rocket 3 20 true demo_pad; demo_rocket 0 10 true demo_pad;
                    demo_rocket 4 0 true demo_pad]
                   demo_process _)).
  split.
  - repeat constructor; simpl; lra.
  - intros k. unfold has_fitness. simpl.
    repeat match goal with
           | |- context [Req_dec_T ?a k] => destruct (Req_dec_T a k)
           end; try reflexivity; exfalso; lra.
Defined.

(** The draw of [demo_process] is 0 <= 0.1: the rare branch is taken. *)
Example demo_draw_takes_branch :
  exists u p', random.uniform 0 1 demo_process = (Ok u, p')
               /\ Qle_bool u float_0_1 = true.
Proof. eexists _, _. split; reflexivity. Qed.



(** C7, witness: with an alive agent on the pad an iteration does not
    breed; with ten dead agents it does. *)
Lemma breeding_iff_none_alive_witness :
  (exists log,
      calls (snd (tick in_rect (demo_sim [demo_rocket 0 (-1) true demo_pad])
                       demo_process))
      = log ++ calls demo_process
      /\ ~ In CallNextGen log)
  /\ (exists log,
         calls (snd (tick in_rect (demo_sim (demo_dead_at_goal 10))
                          demo_process))
         = log ++ calls demo_process
         /\ In CallNextGen log).
Proof.
  split.
  - destruct (breeding_iff_none_alive in_rect
                (demo_sim [demo_rocket 0 (-1) true demo_pad]) demo_process)
      as ((log & Hlog & _ & _ & Hnot) & _).
    exists log. split; [exact Hlog |]. apply Hnot. now constructor.
  - destruct (breeding_iff_none_alive in_rect
                (demo_sim (demo_dead_at_goal 10)) demo_process)
      as ((log & Hlog & _ & Hiff & _) & _).
    exists log. split; [exact Hlog |]. apply Hiff.
    change (Forall (fun r => Rocket.alive r = false) (demo_dead_at_goal 10)).
    unfold demo_dead_at_goal. apply Forall_forall. intros r Hr.
    apply in_map_iff in Hr. destruct Hr as (i & <- & _). reflexivity.
Defined.

Lemma distance_self (p : Point.t) : _distance p p = 0.
Proof. unfold _distance. apply hypot_zero. split; lra. Qed.

Lemma distance_pad_goal : _distance demo_pad demo_goal = 653.
Proof.
  unfold _distance, math.hypot. simpl.
  replace ((300 - 300) * (300 - 300) + (703 - 50) * (703 - 50))
    with (653 * 653) by lra.
  apply sqrt_square. lra.
Qed.

Lemma demo_solved (live : bool) (t : list Rocket.t) :
  found_solution (demo_sim (demo_rocket 0 100 live demo_goal :: t)) = true.
Proof.
  unfold found_solution. simpl existsb. apply orb_true_iff. left.
  apply Rltb_lt. change (Point.mk 300 50) with demo_goal.
  rewrite distance_self. lra.
Qed.

(** C6, witness: an alive agent lies on the goal; three frames of quiet
    events leave everything but the frame rate as it is. *)
Lemma solved_freeze_witness :
  exists f,
    run in_rect demo_config [[KEYUP K_a]; []; [OtherEvent; MOUSEBUTTONUP 1 (5, 5)%Z]]
        (false, demo_sim [demo_rocket 0 100 true demo_goal]) demo_process
    = (Ok (false, set_fps (demo_sim [demo_rocket 0 100 true demo_goal]) f),
       demo_process).
Proof.
  refine (proj2 (proj1 (solved_freeze in_rect demo_config
                          [[KEYUP K_a]; []; [OtherEvent; MOUSEBUTTONUP 1 (5, 5)%Z]]
                          (demo_sim [demo_rocket 0 100 true demo_goal])
                          demo_process _ _) _)).
  - apply demo_solved.
  - repeat constructor.
  - simpl. discriminate.
Defined.

(** C6, counterexample: ten dead agents, all of them lying on the goal.
    The state is solved and no agent is alive; the iteration breeds
    (generation 2), steps the new population (tick index 1) and draws. *)
Lemma solved_does_not_stop_breeding :
  found_solution (demo_sim (demo_dead_at_goal 10)) = true
  /\ alive_rockets (demo_sim (demo_dead_at_goal 10)) = 0%nat
  /\ exists sim' p',
       tick in_rect (demo_sim (demo_dead_at_goal 10)) demo_process = (Ok sim', p')
       /\ generation sim' = 2%nat
       /\ index sim' = 1%nat
       /\ calls p' = [CallDraw; CallUpdate; CallNextGen].
Proof.
  split; [apply (demo_solved false) |]. split; [reflexivity |].
  set (sim := demo_sim (demo_dead_at_goal 10)).
  set (p := mkProcess (entropy demo_process) (drawn demo_process)
                      (_id demo_process) (CallNextGen :: calls demo_process)).
  destruct (next_gen_succeeds sim) with (p := p) as (sim1 & p1 & En).
  { unfold sim. simpl rockets. rewrite demo_dead_ids. apply seq_NoDup. }
  { left. unfold sim. simpl rockets. rewrite demo_dead_length. simpl. lia. }
  destruct (next_gen_spec sim _ _ _ En)
    as (Hlen & Hi & Hg & Hpad & Hok & Hst & Hgl & _).
  destruct (next_gen_steady sim _ _ _ En) as [Hcalls _].
  assert (Hgen : Forall genome_ok (rockets sim1)).
  { apply Hok. change (Forall genome_ok (demo_dead_at_goal 10)).
    unfold demo_dead_at_goal. apply Forall_forall. intros r Hr. apply in_map_iff in Hr.
    destruct Hr as (i & <- & _). apply demo_rocket_genome_ok. }
  assert (Hfar : found_solution sim1 = false).
  { apply far_from_goal. eapply Forall_impl; [| exact Hpad].
    intros r (Hp & _). rewrite Hp, Hst, Hgl. simpl.
    replace (750 + 3 - 50) with 703 by lra.
    fold demo_pad demo_goal. rewrite distance_pad_goal. lra. }
  destruct (update_total in_rect sim1) as [sim2 Eu].
  { rewrite Hst, Hgl. apply demo_start_goal. }
  { eapply Forall_impl; [| exact Hgen]. intros r [Hl _] C.
    rewrite C in Hl. discriminate. }
  destruct (update_steps in_rect _ _ Eu) as (Hs & Hi2 & Hg2 & _).
  destruct (draw_total sim2) as [sim3 Ed].
  { apply Forall2_length in Hs. intros C. rewrite C, Hlen in Hs.
    unfold pool_size, sim in Hs. simpl rockets in Hs.
    rewrite demo_dead_length in Hs. discriminate. }
  exists sim3, (mkProcess (entropy p1) (drawn p1) (_id p1)
                          (CallDraw :: CallUpdate :: calls p1)).
  split; [apply (tick_breeds in_rect sim sim1 sim2 sim3 demo_process p1);
          auto |].
  assert (Hd3 : generation sim3 = generation sim2 /\ index sim3 = index sim2).
  { unfold draw in Ed. simpl in Ed.
    destruct (max_ _ (rockets sim2)); [| discriminate]. now inversion Ed. }
  destruct Hd3 as [-> ->]. rewrite Hg2, Hi2, Hg, Hi. simpl calls.
  rewrite Hcalls. repeat split.
Qed.

(** C8, witness: a dead rocket outside the window, three steps later. *)
Lemma dead_rockets_are_frozen_witness :
  exists self' r',
    updates in_rect 3 (demo_sim [demo_rocket 0 50 false (Point.mk 700 300)])
    = Ok self'
    /\ rockets self' = [r']
    /\ Rocket.pos r' = Point.mk 700 300
    /\ Rocket.angle r' = 270%Z
    /\ Rocket.alive r' = false.
Proof.
  destruct (updates_total in_rect 3
              (demo_sim [demo_rocket 0 50 false (Point.mk 700 300)]))
    as [self' E].
  - apply demo_start_goal.
  - repeat constructor. apply demo_rocket_genome.
  - pose proof (dead_rockets_are_frozen in_rect 3 _ _ E) as H.
    simpl rockets in H at 1.
    inversion H as [| r r' t t' Hr Ht Er Et]; subst.
    inversion Ht; subst.
    destruct (Hr eq_refl) as (Hp & Ha & Hd).
    exists self', r'. repeat split; auto.
Defined.

Lemma radians_180 : math.radians 180 = PI.
Proof. unfold math.radians. lra. Qed.

(** C9, witness: an alive rocket at (2, 300) heading 180 leaves the
    window through its left edge and is dead after the step. *)
Lemma collision_pass_kills_witness :
  exists self' r',
    update in_rect
      (demo_sim [Rocket.mk (repeat 7%Z 300) (-1) 0 true 180 (Point.mk 2 300)])
    = Ok self'
    /\ rockets self' = [r']
    /\ Rocket.pos r' = Point.mk (-1) 300
    /\ Rocket.alive r' = false.
Proof.
  set (r0 := Rocket.mk (repeat 7%Z 300) (-1) 0 true 180 (Point.mk 2 300)).
  destruct (update_total in_rect (demo_sim [r0])) as [self' E].
  - apply demo_start_goal.
  - repeat constructor. discriminate.
  - destruct (collision_pass_kills in_rect _ _ E) as [H _].
    destruct (update_steps in_rect _ _ E) as (Hs & _).
    simpl rockets in H at 1. simpl rockets in Hs at 1.
    destruct (rockets self') as [| r' [| r'' t']] eqn:Er;
      [inversion Hs | | inversion Hs as [| ? ? ? ? ? Hrest]; inversion Hrest].
    inversion Hs as [| ? ? ? ? Hstep _]; subst.
    inversion H as [| ? ? ? ? Hr _]; subst.
    destruct (rocket_step_alive in_rect _ _ _ Hstep eq_refl) as (d & _ & _ & Hp).
    simpl in Hp. rewrite radians_180, cos_PI, sin_PI in Hp.
    assert (Hpos : Rocket.pos r' = Point.mk (-1) 300)
      by (rewrite Hp; f_equal; lra).
    exists self', r'. repeat split; auto.
    apply Hr. right. left. rewrite Hpos. simpl. lra.
Defined.

(** ** Examples of the further properties *)

(** X3, witness: a round of crossover between two rockets. *)
Lemma crossover_children_inherit_witness :
  exists child1 child2 p',
    crossover_round [demo_rocket 0 10 true demo_pad;
                     demo_rocket 1 30 true demo_pad] demo_process
    = (Ok [child1; child2], p')
    /\ length (Rocket.genome child1) = 300%nat
    /\ length (Rocket.genome child2) = 300%nat
    /\ Rocket.fitness child1 = -1.
Proof.
  destruct (crossover_round_succeeds
              [demo_rocket 0 10 true demo_pad; demo_rocket 1 30 true demo_pad])
    with (p := demo_process) as (l & p' & E).
  - repeat constructor; simpl; intuition discriminate.
  - simpl. lia.
  - destruct (crossover_children_inherit _ _ 300 _ _ E)
      as (p1 & p2 & c1 & c2 & split & -> & _ & _ & _ & _ & L1 & L2 & F1 & _).
    + repeat constructor.
    + exists c1, c2, p'. auto.
Defined.

(** X4, witness: ten agents breed; the first two of the new population
    are the two fittest of the old one. *)
Lemma elite_is_carried_over_witness :
  exists self' p',
    next_gen (demo_sim (demo_dead_at_goal 10)) demo_process = (Ok self', p')
    /\ firstn 2 (map Rocket.id (rockets self'))
       = map Rocket.id (firstn 2 (sorted fitter (demo_dead_at_goal 10))).
Proof.
  destruct (next_gen_succeeds (demo_sim (demo_dead_at_goal 10)))
    with (p := demo_process) as (self' & p' & E).
  - simpl rockets. rewrite demo_dead_ids. apply seq_NoDup.
  - left. simpl rockets. rewrite demo_dead_length. simpl. lia.
  - exists self', p'. split; [exact E |].
    exact (elite_is_carried_over _ _ _ _ E).
Defined.

(** X6, witness: a step of one rocket on the pad. *)
Lemma update_keeps_population_witness :
  exists self',
    update in_rect (demo_sim [demo_rocket 0 (-1) true demo_pad]) = Ok self'
    /\ map Rocket.id (rockets self') = [0%nat]
    /\ index self' = 1%nat.
Proof.
  destruct (update_total in_rect (demo_sim [demo_rocket 0 (-1) true demo_pad]))
    as [self' E].
  - apply demo_start_goal.
  - repeat constructor. apply demo_rocket_genome.
  - destruct (update_keeps_population in_rect _ _ E) as (Hid & _ & Hi & _).
    exists self'. auto.
Defined.

(** X7, witness: three steps of one alive rocket. *)
Lemma alive_count_never_grows_witness :
  exists self',
    updates in_rect 3 (demo_sim [demo_rocket 0 (-1) true demo_pad]) = Ok self'
    /\ (alive_rockets self' <= 1)%nat.
Proof.
  destruct (updates_total in_rect 3
              (demo_sim [demo_rocket 0 (-1) true demo_pad])) as [self' E].
  - apply demo_start_goal.
  - repeat constructor. apply demo_rocket_genome.
  - exists self'. split; [exact E |].
    exact (alive_count_never_grows in_rect 3 _ _ E).
Defined.

(** X8, witness: scoring the scored rocket of [demo_config] again. *)
Lemma fitness_pass_is_idempotent_witness :
  exists rs',
    _fitness (demo_sim []) [demo_rocket 0 (-1) true demo_pad] = Ok rs'
    /\ _fitness (demo_sim []) rs' = Ok rs'.
Proof.
  destruct (fitness_total (demo_sim []) [demo_rocket 0 (-1) true demo_pad]
              (demo_start_goal _)) as (rs' & E & _).
  exists rs'. split; [exact E |].
  exact (proj1 (fitness_pass_is_idempotent _ _ _ E)).
Defined.

(** X9, witness: a right click on the start point (300, 750). *)
Lemma right_click_on_start_raises_witness :
  update in_rect
    (set_goal (demo_sim [demo_rocket 0 (-1) true demo_pad]) (Point.mk 300 750))
  = Raise ZeroDivisionError.
Proof.
  refine (proj2 (right_click_on_start_raises in_rect demo_config false
                   (demo_sim [demo_rocket 0 (-1) true demo_pad])
                   300 750 demo_process _ _)).
  - discriminate.
  - reflexivity.
Defined.

Lemma demo_config_runs (events : list Event) :
  Forall (fun e => quiet e = true) events ->
  exists st p', main in_rect demo_config [events] demo_process = (Ok st, p').
Proof.
  intros H. apply first_frame_runs; [reflexivity | | exact H].
  simpl. intros C. inversion C.
Qed.

(** X10, witness: the a key is released twice in the first frame. *)
Lemma fps_stays_in_range_witness :
  exists st p',
    main in_rect demo_config [[KEYUP K_a; KEYUP K_a]] demo_process = (Ok st, p')
    /\ (5 <= fps (snd st) <= 300)%Z.
Proof.
  destruct (demo_config_runs [KEYUP K_a; KEYUP K_a]) as (st & p' & E).
  - repeat constructor.
  - exists st, p'. split; [exact E |].
    exact (proj1 (fps_stays_in_range in_rect _ _ _ _ _ E)).
Defined.

Lemma demo_quit_frame :
  loop_body in_rect demo_config [OtherEvent; QUIT]
    (false, demo_sim [demo_rocket 0 100 true demo_goal]) demo_process
  = (Ok (true, demo_sim [demo_rocket 0 100 true demo_goal]), demo_process).
Proof.
  assert (H : handle_events demo_config [OtherEvent; QUIT]
                (false, demo_sim [demo_rocket 0 100 true demo_goal]) demo_process
              = (Ok (true, demo_sim [demo_rocket 0 100 true demo_goal]),
                 demo_process)) by reflexivity.
  unfold loop_body. rewrite bind_M, H. cbn [snd fst].
  rewrite bind_M, tick_frozen.
  - reflexivity.
  - apply demo_solved.
  - simpl. discriminate.
Qed.

(** X11, witness: QUIT in the first frame; the restart asked for in the
    second frame never happens. *)
Lemma quit_ends_the_loop_witness :
  run in_rect demo_config [[OtherEvent; QUIT]; [KEYUP K_r]]
      (false, demo_sim [demo_rocket 0 100 true demo_goal]) demo_process
  = (Ok (true, demo_sim [demo_rocket 0 100 true demo_goal]), demo_process).
Proof.
  exact (proj2 (quit_ends_the_loop in_rect demo_config [OtherEvent; QUIT]
                  [[KEYUP K_r]] _ _ _ _ demo_quit_frame)).
Defined.

(** X12, witness: a configured population of 0. *)
Lemma empty_population_raises_witness :
  fst (main in_rect (Config.mk 0 [] (300, 750)%Z (300, 50)%Z)
            [[KEYUP K_r]; []] demo_process)
  = Raise ValueError.
Proof.
  apply (empty_population_raises in_rect). simpl. lia.
Defined.

(** X13, witness: the first frame of [demo_config]. *)
Lemma ids_are_never_shared_witness :
  exists st p',
    main in_rect demo_config [[]] demo_process = (Ok st, p')
    /\ NoDup (map Rocket.id (rockets (snd st))).
Proof.
  destruct (demo_config_runs []) as (st & p' & E).
  - constructor.
  - exists st, p'. split; [exact E |].
    exact (proj1 (ids_are_never_shared in_rect _ _ _ _ _ E)).
Defined.

(** X15, witness: ten dead agents; the iteration breeds generation 2. *)
Lemma tick_moves_the_counters_witness :
  exists sim' p',
    tick in_rect (demo_sim (demo_dead_at_goal 10)) demo_process = (Ok sim', p')
    /\ generation sim' = 2%nat.
Proof.
  destruct (tick_runs in_rect (demo_sim (demo_dead_at_goal 10)) demo_process)
    as (sim' & p' & E).
  - apply demo_start_goal.
  - change (Forall genome_ok (demo_dead_at_goal 10)).
    unfold demo_dead_at_goal. apply Forall_forall. intros r Hr.
    apply in_map_iff in Hr. destruct Hr as (i & <- & _).
    apply demo_rocket_genome_ok.
  - simpl rockets. rewrite demo_dead_ids. apply seq_NoDup.
  - right. simpl rockets. rewrite demo_dead_length. simpl. lia.
  - exists sim', p'. split; [exact E |].
    exact (proj1 (tick_moves_the_counters in_rect _ _ _ _ E)).
Defined.

(** X16, witness: five agents of fitness 10, 30, 30, 20 and 0. *)
Lemma selection_prefers_the_fitter_witness :
  exists elite p',
    _selection
      [demo_rocket 0 10 true demo_pad; demo_rocket 1 30 true demo_pad;
       demo_rocket 2 30 true demo_pad; demo_rocket 3 20 true demo_pad;
       demo_rocket 4 0 true demo_pad]
      demo_process
    = (Ok elite, p')
    /\ length elite = 1%nat.
Proof.
  destruct (selection_succeeds
              [demo_rocket 0 10 true demo_pad; demo_rocket 1 30 true demo_pad;
               demo_rocket 2 30 true demo_pad; demo_rocket 3 20 true demo_pad;
               demo_rocket 4 0 true demo_pad] demo_process) as (elite & p' & E).
  exists elite, p'. split; [exact E |].
  exact (proj1 (selection_prefers_the_fitter _ _ _ _ E)).
Defined.

(** X22, witness: after three steps the rocket on the pad, if still
    alive, heads 270 + 7 + 7 + 7. *)
Lemma heading_adds_up_witness :
  exists self' r',
    updates in_rect 3 (demo_sim [demo_rocket 0 (-1) true demo_pad]) = Ok self'
    /\ rockets self' = [r']
    /\ (Rocket.alive r' = true -> Rocket.angle r' = 291%Z).
Proof.
  destruct (updates_total in_rect 3
              (demo_sim [demo_rocket 0 (-1) true demo_pad])) as [self' E].
  - apply demo_start_goal.
  - repeat constructor. apply demo_rocket_genome.
  - pose proof (heading_adds_up in_rect 3 _ _ E) as H.
    simpl rockets in H at 1.
    destruct (rockets self') as [| r' [| r'' t']] eqn:Er;
      [inversion H | | inversion H as [| ? ? ? ? ? Hrest]; inversion Hrest].
    inversion H as [| ? ? ? ? [_ Hsum] _]; subst.
    exists self', r'. repeat split; auto.
Defined.

(** X21, witness: the step of the rocket on the pad at tick 600 is its
    step at tick 0. *)
Lemma genome_is_read_in_a_circle_witness :
  exists self',
    update in_rect (demo_sim [demo_rocket 0 (-1) true demo_pad]) = Ok self'
    /\ update in_rect
         (set_index (demo_sim [demo_rocket 0 (-1) true demo_pad]) 600)
       = Ok (set_index self' (index self' + 600)).
Proof.
  destruct (update_total in_rect (demo_sim [demo_rocket 0 (-1) true demo_pad]))
    as [self' E].
  - apply demo_start_goal.
  - repeat constructor. apply demo_rocket_genome.
  - exists self'. split; [exact E |].
    refine (genome_is_read_in_a_circle in_rect _ self' 2 _ E).
    repeat constructor.
Defined.
